(** * Sweet Somnum: progress store and navigation machine of [src/index.tsx]

    A shallow embedding of the program's logic:
    - the values the program exchanges with [JSON.parse] / [JSON.stringify]
      and with [localStorage];
    - [loadGameState] and [saveGameState], written in a small effect monad
      with exceptions and [try]/[catch];
    - the component [App] with its nested components [MainMenu],
      [ChapterSelect] and [GameView] as a state record, the events the
      rendered controls and the platform can raise, and one [step] per
      event.

    Conventions of the model.
    - A JavaScript number is an integer ([Z]): chapter counters are integers.
      A JSON number literal with a fraction or an exponent is outside the
      modelled fragment and the parser stops on it.  Integers are unbounded
      here, the platform's are exact up to [2^53]: the statements that depend
      on the value or on the text of a number are made for safe integers
      ([safe_integer]), on which the model and the platform agree.
    - A JavaScript string is a [string] whose characters are the code units
      [0..255]; a [\uXXXX] escape above that range is outside the fragment.
    - [localStorage] either does a write or throws and keeps its content.
    - Time is a clock in milliseconds with a queue of pending timers.
    - The audio graph is reduced to whether the click sound can be played
      and to the sounds started.  Styling and images are left out: every
      control that is rendered can be clicked. *)

From Stdlib Require Import ZArith NArith String Ascii List Bool Lia.
From stdpp Require Import base option list gmap strings.

Local Open Scope string_scope.
Set Warnings "-register-all".

(** ** Values *)

Inductive JSValue : Type :=
| JUndefined
| JNull
| JBool (b : bool)
| JNum (n : Z)
| JStr (s : string)
| JArr (elems : list JSValue)
| JObj (props : list (string * JSValue)).

(** [ToBoolean]: the test performed by [if (...)] and by [&&]. *)
Definition ToBoolean (v : JSValue) : bool :=
  match v with
  | JUndefined | JNull => false
  | JBool b => b
  | JNum n => negb (n =? 0)%Z
  | JStr s => negb (String.eqb s "")
  | JArr _ | JObj _ => true
  end.

(** ** Decimal numerals *)

Definition digit_char (d : N) : ascii := ascii_of_N (48 + d).

Definition digit_value (c : ascii) : option N :=
  let n := N_of_ascii c in
  if (48 <=? n)%N && (n <=? 57)%N then Some (n - 48)%N else None.

Fixpoint decimal_go (fuel : nat) (n : N) (acc : string) : string :=
  match fuel with
  | O => acc
  | S fuel' =>
      let acc' := String (digit_char (n mod 10)) acc in
      if (n / 10 =? 0)%N then acc' else decimal_go fuel' (n / 10) acc'
  end.

(** The binary length of [n] bounds its decimal length. *)
Definition decimal (n : N) : string :=
  decimal_go (S (N.to_nat (N.log2 n))) n "".

(** [Number::toString] on an integer, in plain digits: what the platform
    writes for an integer below [10^21] in absolute value. *)
Definition NumberToString (n : Z) : string :=
  if (n <? 0)%Z then String "-" (decimal (Z.abs_N n)) else decimal (Z.abs_N n).

Fixpoint read_digits (acc : N) (s : string) : option N :=
  match s with
  | EmptyString => Some acc
  | String c s' =>
      match digit_value c with
      | Some d => read_digits (acc * 10 + d) s'
      | None => None
      end
  end.

(** An array index is the canonical numeral of an integer below [2^32 - 1];
    such keys are enumerated first, in ascending order. *)
Definition array_index (k : string) : option N :=
  match k with
  | EmptyString => None
  | _ =>
      match read_digits 0 k with
      | Some n =>
          if (n <=? 4294967294)%N && String.eqb (decimal n) k then Some n else None
      | None => None
      end
  end.

(** ** Objects: own data properties in enumeration order *)

Fixpoint obj_get (props : list (string * JSValue)) (k : string) : option JSValue :=
  match props with
  | [] => None
  | (k', v) :: rest => if String.eqb k' k then Some v else obj_get rest k
  end.

Fixpoint obj_update (props : list (string * JSValue)) (k : string) (v : JSValue)
  : list (string * JSValue) :=
  match props with
  | [] => []
  | (k', v') :: rest =>
      if String.eqb k' k then (k, v) :: rest else (k', v') :: obj_update rest k v
  end.

Fixpoint obj_insert (props : list (string * JSValue)) (k : string) (i : option N)
    (v : JSValue) : list (string * JSValue) :=
  match props with
  | [] => [(k, v)]
  | (k', v') :: rest =>
      match i, array_index k' with
      | Some n, Some n' =>
          if (n <? n')%N then (k, v) :: props else (k', v') :: obj_insert rest k i v
      | Some _, None => (k, v) :: props
      | None, _ => (k', v') :: obj_insert rest k i v
      end
  end.

(** [CreateDataProperty]: an existing key keeps its place, a new one is
    enumerated after the keys created before it (array indices first). *)
Definition define (props : list (string * JSValue)) (k : string) (v : JSValue)
  : list (string * JSValue) :=
  match obj_get props k with
  | Some _ => obj_update props k v
  | None => obj_insert props k (array_index k) v
  end.

Fixpoint string_chars (s : string) : list string :=
  match s with
  | EmptyString => []
  | String c s' => String c "" :: string_chars s'
  end.

Definition indexed {A} (f : A -> JSValue) (l : list A) : list (string * JSValue) :=
  imap (fun i x => (decimal (N.of_nat i), f x)) l.

(** [o.k] for a value that is neither [null] nor [undefined].  Own data
    properties, indices and [length]; the methods of the built-in prototypes
    are not values of this model. *)
Definition member (o : JSValue) (k : string) : JSValue :=
  match o with
  | JObj props => default JUndefined (obj_get props k)
  | JArr elems =>
      if String.eqb k "length" then JNum (Z.of_nat (length elems))
      else default JUndefined (obj_get (indexed id elems) k)
  | JStr s =>
      if String.eqb k "length" then JNum (Z.of_nat (String.length s))
      else default JUndefined (obj_get (indexed JStr (string_chars s)) k)
  | _ => JUndefined
  end.

(** The own enumerable properties copied by the spread [{...o}]. *)
Definition spread (o : JSValue) : list (string * JSValue) :=
  match o with
  | JObj props => props
  | JArr elems => indexed id elems
  | JStr s => indexed JStr (string_chars s)
  | _ => []
  end.

(** ** [JSON.stringify] *)

Definition dquote : ascii := "034"%char.

Definition hex_char (n : N) : ascii :=
  if (n <? 10)%N then ascii_of_N (48 + n) else ascii_of_N (87 + n).

Definition QuoteJSONChar (c : ascii) : string :=
  let n := N_of_ascii c in
  if (n =? 8)%N then "\b"
  else if (n =? 9)%N then "\t"
  else if (n =? 10)%N then "\n"
  else if (n =? 12)%N then "\f"
  else if (n =? 13)%N then "\r"
  else if (n =? 34)%N then String "\" (String dquote "")
  else if (n =? 92)%N then "\\"
  else if (n <? 32)%N then
    "\u00" +:+ String (hex_char (n / 16)) (String (hex_char (n mod 16)) "")
  else String c "".

Fixpoint QuoteJSONBody (s : string) : string :=
  match s with
  | EmptyString => String dquote ""
  | String c s' => QuoteJSONChar c +:+ QuoteJSONBody s'
  end.

Definition QuoteJSONString (s : string) : string := String dquote (QuoteJSONBody s).

Fixpoint join_commas (l : list string) : string :=
  match l with
  | [] => ""
  | [x] => x
  | x :: rest => x +:+ "," +:+ join_commas rest
  end.

(** [SerializeJSONProperty]: [None] is JavaScript's [undefined] result.  An
    [undefined] array element is written [null], an [undefined] property is
    left out. *)
Fixpoint SerializeJSONProperty (v : JSValue) : option string :=
  match v with
  | JUndefined => None
  | JNull => Some "null"
  | JBool true => Some "true"
  | JBool false => Some "false"
  | JNum n => Some (NumberToString n)
  | JStr s => Some (QuoteJSONString s)
  | JArr elems =>
      let items :=
        (fix go (l : list JSValue) : list string :=
           match l with
           | [] => []
           | e :: l' => default "null" (SerializeJSONProperty e) :: go l'
           end) elems in
      Some ("[" +:+ join_commas items +:+ "]")
  | JObj props =>
      let items :=
        (fix go (l : list (string * JSValue)) : list string :=
           match l with
           | [] => []
           | (k, x) :: l' =>
               match SerializeJSONProperty x with
               | Some t => (QuoteJSONString k +:+ ":" +:+ t) :: go l'
               | None => go l'
               end
           end) props in
      Some ("{" +:+ join_commas items +:+ "}")
  end.

Definition JSON_stringify (v : JSValue) : option string := SerializeJSONProperty v.

(** ** [JSON.parse]

    The text is read in one pass by a lexer automaton, one character at a
    time; the tokens are then read in one pass by a parser automaton with an
    explicit stack of open containers.  [None] is the [SyntaxError]. *)

Inductive Token : Type :=
| TLBrace | TRBrace | TLBracket | TRBracket | TColon | TComma
| TString (s : string) | TNumber (n : Z) | TTrue | TFalse | TNull.

Inductive Lex : Type :=
| LStart                                   (* between two tokens *)
| LString (acc : list ascii)               (* in a string, characters reversed *)
| LEscape (acc : list ascii)               (* after a backslash *)
| LUnicode (acc : list ascii) (more : nat) (code : N)
                                           (* in \uXXXX, [S more] digits to read *)
| LMinus                                   (* after the sign of a number *)
| LZero                                    (* after the numeral 0 or -0 *)
| LInt (neg : bool) (n : N)                (* in the digits of a number *)
| LWord (rest : string) (t : Token).       (* in true, false or null *)

Definition is_whitespace (c : ascii) : bool :=
  let n := N_of_ascii c in
  (n =? 32)%N || (n =? 9)%N || (n =? 10)%N || (n =? 13)%N.

Definition hex_value (c : ascii) : option N :=
  let n := N_of_ascii c in
  if (48 <=? n)%N && (n <=? 57)%N then Some (n - 48)%N
  else if (65 <=? n)%N && (n <=? 70)%N then Some (n - 55)%N
  else if (97 <=? n)%N && (n <=? 102)%N then Some (n - 87)%N
  else None.

Definition list_to_string (l : list ascii) : string :=
  fold_right String EmptyString l.

Definition signed (neg : bool) (n : N) : Z :=
  if neg then (- Z.of_N n)%Z else Z.of_N n.

(** A character met between two tokens. *)
Definition lex_start (c : ascii) (out : list Token) : option (Lex * list Token) :=
  if is_whitespace c then Some (LStart, out)
  else if Ascii.eqb c "{" then Some (LStart, TLBrace :: out)
  else if Ascii.eqb c "}" then Some (LStart, TRBrace :: out)
  else if Ascii.eqb c "[" then Some (LStart, TLBracket :: out)
  else if Ascii.eqb c "]" then Some (LStart, TRBracket :: out)
  else if Ascii.eqb c ":" then Some (LStart, TColon :: out)
  else if Ascii.eqb c "," then Some (LStart, TComma :: out)
  else if Ascii.eqb c dquote then Some (LString [], out)
  else if Ascii.eqb c "-" then Some (LMinus, out)
  else if Ascii.eqb c "t" then Some (LWord "rue" TTrue, out)
  else if Ascii.eqb c "f" then Some (LWord "alse" TFalse, out)
  else if Ascii.eqb c "n" then Some (LWord "ull" TNull, out)
  else
    match digit_value c with
    | Some 0%N => Some (LZero, out)
    | Some d => Some (LInt false d, out)
    | None => None
    end.

(** The character after a complete numeral ends it; a fraction or an
    exponent is outside the fragment. *)
Definition lex_after_number (n : Z) (c : ascii) (out : list Token)
  : option (Lex * list Token) :=
  if Ascii.eqb c "." || Ascii.eqb c "e" || Ascii.eqb c "E" then None
  else lex_start c (TNumber n :: out).

Definition lex_char (st : Lex) (c : ascii) (out : list Token)
  : option (Lex * list Token) :=
  match st with
  | LStart => lex_start c out
  | LString acc =>
      if Ascii.eqb c dquote then
        Some (LStart, TString (list_to_string (rev acc)) :: out)
      else if Ascii.eqb c "\" then Some (LEscape acc, out)
      else if (N_of_ascii c <? 32)%N then None
      else Some (LString (c :: acc), out)
  | LEscape acc =>
      if Ascii.eqb c dquote then Some (LString (dquote :: acc), out)
      else if Ascii.eqb c "\" then Some (LString ("\"%char :: acc), out)
      else if Ascii.eqb c "/" then Some (LString ("/"%char :: acc), out)
      else if Ascii.eqb c "b" then Some (LString ("008"%char :: acc), out)
      else if Ascii.eqb c "f" then Some (LString ("012"%char :: acc), out)
      else if Ascii.eqb c "n" then Some (LString ("010"%char :: acc), out)
      else if Ascii.eqb c "r" then Some (LString ("013"%char :: acc), out)
      else if Ascii.eqb c "t" then Some (LString ("009"%char :: acc), out)
      else if Ascii.eqb c "u" then Some (LUnicode acc 3 0, out)
      else None
  | LUnicode acc more code =>
      match hex_value c with
      | Some h =>
          let code' := (code * 16 + h)%N in
          match more with
          | S more' => Some (LUnicode acc more' code', out)
          | O =>
              if (code' <? 256)%N then Some (LString (ascii_of_N code' :: acc), out)
              else None
          end
      | None => None
      end
  | LMinus =>
      match digit_value c with
      | Some 0%N => Some (LZero, out)
      | Some d => Some (LInt true d, out)
      | None => None
      end
  | LZero =>
      match digit_value c with
      | Some _ => None
      | None => lex_after_number 0 c out
      end
  | LInt neg n =>
      match digit_value c with
      | Some d => Some (LInt neg (n * 10 + d)%N, out)
      | None => lex_after_number (signed neg n) c out
      end
  | LWord rest t =>
      match rest with
      | String x EmptyString => if Ascii.eqb c x then Some (LStart, t :: out) else None
      | String x rest' => if Ascii.eqb c x then Some (LWord rest' t, out) else None
      | EmptyString => None
      end
  end.

Fixpoint lex_chars (s : string) (st : Lex) (out : list Token)
  : option (Lex * list Token) :=
  match s with
  | String c s' =>
      match lex_char st c out with
      | Some (st', out') => lex_chars s' st' out'
      | None => None
      end
  | EmptyString => Some (st, out)
  end.

(** The end of the text: a numeral may end there, nothing else may be open. *)
Definition lex_end (st : Lex) (out : list Token) : option (list Token) :=
  match st with
  | LStart => Some (rev out)
  | LZero => Some (rev (TNumber 0 :: out))
  | LInt neg n => Some (rev (TNumber (signed neg n) :: out))
  | _ => None
  end.

Definition tokenize (s : string) : option (list Token) :=
  match lex_chars s LStart [] with
  | Some (st, out) => lex_end st out
  | None => None
  end.

(** An open container: an array with its elements so far (reversed), an
    object whose member [key] is being read, or an object after a member. *)
Inductive Frame : Type :=
| FArray (acc : list JSValue)
| FMember (props : list (string * JSValue)) (key : string)
| FObject (props : list (string * JSValue)).

Inductive Parser : Type :=
| PValue (stack : list Frame)            (* a value must come *)
| PArrayFirst (stack : list Frame)       (* after [ : a value or ] *)
| PObjectFirst (stack : list Frame)      (* after { : a key or } *)
| PKey (stack : list Frame) (props : list (string * JSValue))
                                         (* after , in an object: a key *)
| PColon (stack : list Frame) (props : list (string * JSValue)) (key : string)
| PAfter (stack : list Frame)            (* after a value in a container *)
| PDone (v : JSValue).                   (* the text's value is complete *)

(** A value is complete: it goes to the innermost open container. *)
Definition complete (stack : list Frame) (v : JSValue) : option Parser :=
  match stack with
  | [] => Some (PDone v)
  | FArray acc :: stack' => Some (PAfter (FArray (v :: acc) :: stack'))
  | FMember props key :: stack' => Some (PAfter (FObject (define props key v) :: stack'))
  | FObject _ :: _ => None
  end.

Definition parse_value (stack : list Frame) (t : Token) : option Parser :=
  match t with
  | TNull => complete stack JNull
  | TTrue => complete stack (JBool true)
  | TFalse => complete stack (JBool false)
  | TNumber n => complete stack (JNum n)
  | TString s => complete stack (JStr s)
  | TLBracket => Some (PArrayFirst stack)
  | TLBrace => Some (PObjectFirst stack)
  | TRBrace | TRBracket | TColon | TComma => None
  end.

Definition parse_token (p : Parser) (t : Token) : option Parser :=
  match p with
  | PValue stack => parse_value stack t
  | PArrayFirst stack =>
      match t with
      | TRBracket => complete stack (JArr [])
      | _ => parse_value (FArray [] :: stack) t
      end
  | PObjectFirst stack =>
      match t with
      | TRBrace => complete stack (JObj [])
      | TString k => Some (PColon stack [] k)
      | _ => None
      end
  | PKey stack props =>
      match t with
      | TString k => Some (PColon stack props k)
      | _ => None
      end
  | PColon stack props key =>
      match t with
      | TColon => Some (PValue (FMember props key :: stack))
      | _ => None
      end
  | PAfter (FArray acc :: stack) =>
      match t with
      | TComma => Some (PValue (FArray acc :: stack))
      | TRBracket => complete stack (JArr (rev acc))
      | _ => None
      end
  | PAfter (FObject props :: stack) =>
      match t with
      | TComma => Some (PKey stack props)
      | TRBrace => complete stack (JObj props)
      | _ => None
      end
  | PAfter _ => None
  | PDone _ => None
  end.

Fixpoint parse_tokens (ts : list Token) (p : Parser) : option JSValue :=
  match ts with
  | t :: ts' =>
      match parse_token p t with
      | Some p' => parse_tokens ts' p'
      | None => None
      end
  | [] =>
      match p with
      | PDone v => Some v
      | _ => None
      end
  end.

Definition JSON_parse (text : string) : option JSValue :=
  match tokenize text with
  | Some ts => parse_tokens ts (PValue [])
  | None => None
  end.

(** ** The environment and the effect monad *)

Inductive Exn : Type :=
| SyntaxError | TypeError | SecurityError | QuotaExceededError.

(** [localStorage]: the stored items, the space the origin may use (counted
    in code units of keys and values, [None] for no limit) and whether access
    is refused altogether. *)
Record Storage : Type := {
  items : gmap string string;
  quota : option nat;
  denied : bool
}.

(** What a pending timer does when it fires: the closure it was created
    with, bound to the component instance that created it. *)
Inductive TimerAction : Type :=
| HideTooltip (instance : nat)      (* () => setVisibleTooltip(null) *)
| FadeInDone (instance : nat).      (* () => setIsFadingIn(false) *)

Record Timer : Type := {
  timer_id : N;
  due : N;
  action : TimerAction
}.

(** The observable calls of the program, oldest first. *)
Inductive Effect : Type :=
| call_getItem (key : string)
| call_setItem (key value : string)
| console_error (message : string) (error : Exn)
| console_log_choice (choice : nat)       (* `Player chose: ${choice}` *)
| console_log_restart (chapter : JSValue) (* `Restarting chapter ${chapter}` *)
| sound_started.                          (* source.start(0) *)

Record Env : Type := {
  localStorage : Storage;
  now : N;                  (* the clock, in milliseconds *)
  timers : list Timer;      (* pending timers, the next to fire first *)
  next_timer : N;           (* the id the next setTimeout returns *)
  trace : list Effect
}.

Definition with_localStorage (s : Storage) (env : Env) : Env :=
  {| localStorage := s; now := now env; timers := timers env;
     next_timer := next_timer env; trace := trace env |}.

Definition with_trace (t : list Effect) (env : Env) : Env :=
  {| localStorage := localStorage env; now := now env; timers := timers env;
     next_timer := next_timer env; trace := t |}.

Definition emit (e : Effect) (env : Env) : Env := with_trace (trace env ++ [e]) env.

Inductive Outcome (A : Type) : Type :=
| Return (a : A)
| Throw (e : Exn).
Arguments Return {A} a.
Arguments Throw {A} e.

Definition Eff (A : Type) : Type := Env -> Outcome A * Env.

Definition ret {A} (a : A) : Eff A := fun env => (Return a, env).

Definition throw {A} (e : Exn) : Eff A := fun env => (Throw e, env).

Definition bind {A B} (c : Eff A) (k : A -> Eff B) : Eff B :=
  fun env =>
    match c env with
    | (Return a, env') => k a env'
    | (Throw e, env') => (Throw e, env')
    end.

Definition try_catch {A} (body : Eff A) (handler : Exn -> Eff A) : Eff A :=
  fun env =>
    match body env with
    | (Return a, env') => (Return a, env')
    | (Throw e, env') => handler e env'
    end.

Declare Scope eff_scope.
Delimit Scope eff_scope with eff.
Notation "x <- c ;; k" := (bind c (fun x => k))
  (at level 100, c at level 99, k at level 200, right associativity) : eff_scope.
Notation "c ;; k" := (bind c (fun _ => k))
  (at level 100, k at level 200, right associativity) : eff_scope.
Notation "'try' body 'catch' handler" := (try_catch body handler)
  (at level 100, body at level 200, handler at level 9) : eff_scope.
Local Open Scope eff_scope.

Definition perform (e : Effect) : Eff unit := fun env => (Return tt, emit e env).

(** ** The platform calls of the progress store *)

Definition storage_size (m : gmap string string) : nat :=
  map_fold (fun k v n => String.length k + String.length v + n) 0 m.

Definition getItem (key : string) : Eff (option string) :=
  perform (call_getItem key);;
  fun env =>
    if denied (localStorage env) then (Throw SecurityError, env)
    else (Return (items (localStorage env) !! key), env).

(** A write that cannot be done throws and leaves the stored items alone. *)
Definition setItem (key value : string) : Eff unit :=
  perform (call_setItem key value);;
  fun env =>
    let st := localStorage env in
    let items' := <[key := value]> (items st) in
    if denied st then (Throw SecurityError, env)
    else
      match quota st with
      | Some q =>
          if (q <? storage_size items')%nat then (Throw QuotaExceededError, env)
          else (Return tt, with_localStorage
                             {| items := items'; quota := quota st; denied := false |} env)
      | None =>
          (Return tt, with_localStorage
                        {| items := items'; quota := quota st; denied := false |} env)
      end.

Definition JSON_parse_eff (text : string) : Eff JSValue :=
  match JSON_parse text with
  | Some v => ret v
  | None => throw SyntaxError
  end.

(** [o.k]: reading a property of [null] or [undefined] is a [TypeError]. *)
Definition get_member (o : JSValue) (k : string) : Eff JSValue :=
  match o with
  | JUndefined | JNull => throw TypeError
  | _ => ret (member o k)
  end.

(** ** The progress store *)

Definition GAME_STATE_KEY : string := "somnumGameState".

Definition defaultGameState : JSValue :=
  JObj [("currentChapter", JNum 1); ("unlockedChapters", JNum 1)].

(** [if (savedState)]: [null] and the empty string are falsy. *)
Definition truthy_item (savedState : option string) : bool :=
  match savedState with
  | Some text => negb (String.eqb text "")
  | None => false
  end.

(** The [try] block either reaches its [return parsedState] ([Some]) or
    falls through ([None]) to [return defaultGameState]. *)
Definition loadGameState : Eff JSValue :=
  returned <-
    (try
       (savedState <- getItem GAME_STATE_KEY;;
        if truthy_item savedState then
          parsedState <- JSON_parse_eff (default "" savedState);;
          currentChapter <- get_member parsedState "currentChapter";;
          both <- (if ToBoolean currentChapter
                   then get_member parsedState "unlockedChapters"
                   else ret currentChapter);;
          if ToBoolean both then ret (Some parsedState) else ret None
        else ret None)
     catch
       (fun error =>
          perform (console_error "Failed to load game state:" error);;
          ret None));;
  match returned with
  | Some parsedState => ret parsedState
  | None => ret defaultGameState
  end.

(** [setItem] receives [JSON.stringify(state)] converted to a string. *)
Definition saveGameState (state : JSValue) : Eff unit :=
  try
    (setItem GAME_STATE_KEY (default "undefined" (JSON_stringify state)))
  catch
    (fun error => perform (console_error "Failed to save game state:" error)).

(** ** Timers *)

Definition with_timers (l : list Timer) (next : N) (env : Env) : Env :=
  {| localStorage := localStorage env; now := now env; timers := l;
     next_timer := next; trace := trace env |}.

(** Pending timers are kept in firing order: earlier deadline first, and
    among equal deadlines the one created first. *)
Fixpoint insert_timer (t : Timer) (l : list Timer) : list Timer :=
  match l with
  | [] => [t]
  | t' :: rest =>
      if (due t <? due t')%N then t :: l else t' :: insert_timer t rest
  end.

Definition setTimeout (a : TimerAction) (delay : N) : Eff N :=
  fun env =>
    let id := next_timer env in
    let t := {| timer_id := id; due := (now env + delay)%N; action := a |} in
    (Return id, with_timers (insert_timer t (timers env)) (id + 1)%N env).

Definition clearTimeout (id : N) : Eff unit :=
  fun env =>
    (Return tt,
     with_timers (filter (fun t => timer_id t <> id) (timers env)) (next_timer env) env).

(** ** The component [App] *)

Inductive View : Type := menu | chapters | game.

Definition ROMAN_NUMERALS : list string :=
  ["I"; "II"; "III"; "IV"; "V"; "VI"; "VII"; "VIII"; "IX"; "X"].

(** State of [ChapterSelect]. *)
Record ChapterSelectState : Type := {
  visibleTooltip : option nat;
  tooltipTimeoutRef : option N
}.

(** State of [GameView]; [fadeTimer] is the [timer] its mount effect keeps
    for its cleanup. *)
Record GameViewState : Type := {
  isPanelVisible : bool;
  showRestartConfirm : bool;
  isFadingIn : bool;
  fadeTimer : N
}.

(** State of [App] and of the nested component on screen.  [audioReady] is
    [audioContext && audioBuffer && gainNode]; the context and the gain node
    are set when [App] mounts, the buffer when the sound has been decoded.
    [MainMenu], [ChapterSelect] and [GameView] are functions created by each
    render of [App], so every render of [App] replaces the one on screen by
    a new instance; [instance] numbers them.  [chapterSelect] is meaningful
    when [view = chapters], [gameView] when [view = game]. *)
Record State : Type := {
  view : View;
  gameState : JSValue;
  activeChapter : JSValue;
  audioReady : bool;
  instance : nat;
  chapterSelect : ChapterSelectState;
  gameView : GameViewState
}.

Definition with_view (v : View) (i : nat) (st : State) : State :=
  {| view := v; gameState := gameState st; activeChapter := activeChapter st;
     audioReady := audioReady st; instance := i;
     chapterSelect := chapterSelect st; gameView := gameView st |}.

Definition with_chapter (chapter g : JSValue) (st : State) : State :=
  {| view := view st; gameState := g; activeChapter := chapter;
     audioReady := audioReady st; instance := instance st;
     chapterSelect := chapterSelect st; gameView := gameView st |}.

Definition with_audioReady (b : bool) (st : State) : State :=
  {| view := view st; gameState := gameState st; activeChapter := activeChapter st;
     audioReady := b; instance := instance st;
     chapterSelect := chapterSelect st; gameView := gameView st |}.

Definition with_chapterSelect (c : ChapterSelectState) (st : State) : State :=
  {| view := view st; gameState := gameState st; activeChapter := activeChapter st;
     audioReady := audioReady st; instance := instance st;
     chapterSelect := c; gameView := gameView st |}.

Definition with_gameView (g : GameViewState) (st : State) : State :=
  {| view := view st; gameState := gameState st; activeChapter := activeChapter st;
     audioReady := audioReady st; instance := instance st;
     chapterSelect := chapterSelect st; gameView := g |}.

(** The sound plays only when everything it needs is there. *)
Definition playClickSound (st : State) : Eff unit :=
  if audioReady st then perform sound_started else ret tt.

(** [if (id)] on a timer id. *)
Definition truthy_id (id : option N) : bool :=
  match id with
  | Some n => negb (n =? 0)%N
  | None => false
  end.

(** The cleanup of the nested component on screen. *)
Definition unmount (st : State) : Eff unit :=
  match view st with
  | menu => ret tt
  | chapters =>
      let ref := tooltipTimeoutRef (chapterSelect st) in
      if truthy_id ref then clearTimeout (default 0%N ref) else ret tt
  | game => clearTimeout (fadeTimer (gameView st))
  end.

(** A new instance of the nested component of view [v]: its initial state
    and its mount effect. *)
Definition mount (v : View) (st : State) : Eff State :=
  let i := S (instance st) in
  match v with
  | menu => ret (with_view menu i st)
  | chapters =>
      ret (with_chapterSelect
             {| visibleTooltip := None; tooltipTimeoutRef := None |}
             (with_view chapters i st))
  | game =>
      timer <- setTimeout (FadeInDone i) 100;;
      ret (with_gameView
             {| isPanelVisible := false; showRestartConfirm := false;
                isFadingIn := true; fadeTimer := timer |}
             (with_view game i st))
  end.

(** A render of [App] that shows view [v], as [setView(v)] or any other
    state update of [App] causes: the nested component on screen is cleaned
    up and the one of [v] is mounted. *)
Definition render (v : View) (st : State) : Eff State :=
  unmount st;; mount v st.

(** [playClickSound(); setView(targetView)]. *)
Definition handleNavigation (targetView : View) (st : State) : Eff State :=
  playClickSound st;;
  render targetView st.

(** [setView(targetView)]. *)
Definition handleSilentNavigation (targetView : View) (st : State) : Eff State :=
  render targetView st.

(** The three updates are committed by one render; the new [gameState] is a
    new object, so the effect that depends on it runs [saveGameState], after
    the mount effect of [GameView]. *)
Definition navigateToGame (chapter : JSValue) (st : State) : Eff State :=
  playClickSound st;;
  let gameState' := JObj (define (spread (gameState st)) "currentChapter" chapter) in
  st' <- render game (with_chapter chapter gameState' st);;
  saveGameState gameState';;
  ret st'.

Definition showTooltip (index : nat) (st : State) : Eff State :=
  playClickSound st;;
  (let ref := tooltipTimeoutRef (chapterSelect st) in
   if truthy_id ref then clearTimeout (default 0%N ref) else ret tt);;
  timer <- setTimeout (HideTooltip (instance st)) 3000;;
  ret (with_chapterSelect
         {| visibleTooltip := Some index; tooltipTimeoutRef := Some timer |} st).

Definition togglePanel (st : State) : Eff State :=
  let g := gameView st in
  ret (with_gameView
         {| isPanelVisible := negb (isPanelVisible g);
            showRestartConfirm := showRestartConfirm g;
            isFadingIn := isFadingIn g; fadeTimer := fadeTimer g |} st).

Definition setShowRestartConfirm (b : bool) (st : State) : Eff State :=
  let g := gameView st in
  ret (with_gameView
         {| isPanelVisible := isPanelVisible g; showRestartConfirm := b;
            isFadingIn := isFadingIn g; fadeTimer := fadeTimer g |} st).

Definition handleRestart (st : State) : Eff State :=
  perform (console_log_restart (activeChapter st));;
  let g := gameView st in
  ret (with_gameView
         {| isPanelVisible := false; showRestartConfirm := false;
            isFadingIn := isFadingIn g; fadeTimer := fadeTimer g |} st).

Definition handleChoice (choice : nat) (st : State) : Eff State :=
  perform (console_log_choice choice);;
  playClickSound st;;
  ret st.

(** A timer fires: its closure updates the instance it belongs to, if that
    instance is still on screen. *)
Definition fire (a : TimerAction) (st : State) : State :=
  match a, view st with
  | HideTooltip i, chapters =>
      if decide (i = instance st) then
        with_chapterSelect
          {| visibleTooltip := None;
             tooltipTimeoutRef := tooltipTimeoutRef (chapterSelect st) |} st
      else st
  | FadeInDone i, game =>
      if decide (i = instance st) then
        let g := gameView st in
        with_gameView
          {| isPanelVisible := isPanelVisible g;
             showRestartConfirm := showRestartConfirm g;
             isFadingIn := false; fadeTimer := fadeTimer g |} st
      else st
  | _, _ => st
  end.

Definition with_clock (t : N) (l : list Timer) (env : Env) : Env :=
  {| localStorage := localStorage env; now := t; timers := l;
     next_timer := next_timer env; trace := trace env |}.

(** [ms] milliseconds pass: the timers that are due fire, in order. *)
Definition elapse (ms : N) (st : State) : Eff State :=
  fun env =>
    let t := (now env + ms)%N in
    let fired := filter (fun tm => (due tm <= t)%N) (timers env) in
    let pending := filter (fun tm => ~ (due tm <= t)%N) (timers env) in
    (Return (fold_left (fun s tm => fire (action tm) s) fired st),
     with_clock t pending env).

(** What the user and the platform can do. *)
Inductive Event : Type :=
| click_start                    (* MainMenu: "Начать" *)
| click_load                     (* MainMenu: "Загрузить" *)
| click_chapter (index : nat)    (* ChapterSelect: the chapter at [index] *)
| click_back                     (* ChapterSelect: "Назад" *)
| click_trigger                  (* GameView: the panel trigger area *)
| click_panel                    (* GameView: the panel, outside its buttons *)
| click_exit                     (* GameView: the panel's exit button *)
| click_restart                  (* GameView: the panel's restart button *)
| click_yes                      (* GameView: "Да" of the confirmation *)
| click_no                       (* GameView: "Нет" of the confirmation *)
| click_choice (index : nat)     (* DialogueBox: a choice *)
| time_passes (ms : N)
| sound_decoded.                 (* setAudioBuffer(decodedData) *)

(** The state [App] starts in when [loadGameState] returned [g]:
    [useState('menu')], [useState(loadGameState)] and
    [useState(gameState.currentChapter)]. *)
Definition initial (g : JSValue) : State :=
  {| view := menu; gameState := g;
     activeChapter := member g "currentChapter";
     audioReady := false; instance := 0;
     chapterSelect := {| visibleTooltip := None; tooltipTimeoutRef := None |};
     gameView := {| isPanelVisible := false; showRestartConfirm := false;
                    isFadingIn := false; fadeTimer := 0 |} |}.

(** [App] mounts: the state is initialised and the effect on [gameState]
    runs once.  (The double invocation of React's development mode is not
    part of the model.) *)
Definition boot : Eff State :=
  g <- loadGameState;;
  saveGameState g;;
  ret (initial g).

Section App.

(** [n > v] when [v] is a string, an array or an object goes through the
    platform's coercion of [v] to a number, possibly a fraction or [NaN]:
    it is a parameter.  The interface [GameState] declares both fields to
    be numbers. *)
Variable gt_coerced : Z -> JSValue -> bool.

Definition js_gt (n : Z) (v : JSValue) : bool :=
  match v with
  | JNum m => (n >? m)%Z
  | JBool b => (n >? (if b then 1 else 0))%Z
  | JNull => (n >? 0)%Z
  | JUndefined => false
  | JStr _ | JArr _ | JObj _ => gt_coerced n v
  end.

(** [const isLocked = chapterNumber > gameState.unlockedChapters]. *)
Definition isLocked (chapterNumber : Z) (unlockedChapters : JSValue) : bool :=
  js_gt chapterNumber unlockedChapters.

(** The handler of an event; a control that is not rendered raises none. *)
Definition step (e : Event) (st : State) : Eff State :=
  match e, view st with
  | click_start, menu =>
      navigateToGame (member (gameState st) "currentChapter") st
  | click_load, menu => handleNavigation chapters st
  | click_chapter index, chapters =>
      if (index <? length ROMAN_NUMERALS)%nat then
        let chapterNumber := (Z.of_nat index + 1)%Z in
        if isLocked chapterNumber (member (gameState st) "unlockedChapters")
        then showTooltip index st
        else navigateToGame (JNum chapterNumber) st
      else ret st
  | click_back, chapters => handleNavigation menu st
  | click_trigger, game | click_panel, game => togglePanel st
  | click_exit, game => handleSilentNavigation menu st
  | click_restart, game => setShowRestartConfirm true st
  | click_yes, game =>
      if showRestartConfirm (gameView st) then handleRestart st else ret st
  | click_no, game =>
      if showRestartConfirm (gameView st) then setShowRestartConfirm false st
      else ret st
  | click_choice index, game =>
      if (index <? 2)%nat then handleChoice index st else ret st
  | time_passes ms, _ => elapse ms st
  | sound_decoded, _ => render (view st) (with_audioReady true st)
  | _, _ => ret st
  end.

Fixpoint run (events : list Event) (st : State) : Eff State :=
  match events with
  | [] => ret st
  | e :: rest => st' <- step e st;; run rest st'
  end.


(** The event calls [navigateToGame chapter]. *)
Definition enters (e : Event) (st : State) (chapter : JSValue) : Prop :=
  match e, view st with
  | click_start, menu => chapter = member (gameState st) "currentChapter"
  | click_chapter index, chapters =>
      (index < length ROMAN_NUMERALS)%nat
      /\ isLocked (Z.of_nat index + 1) (member (gameState st) "unlockedChapters") = false
      /\ chapter = JNum (Z.of_nat index + 1)
  | _, _ => False
  end.

(** A page that has just been loaded: none of its timers is pending. *)
Definition fresh (env : Env) : Prop := timers env = [] /\ (0 < next_timer env)%N.

(** [App] mounted in the fresh page [env0] and handled [events]. *)
Definition reaches (env0 : Env) (events : list Event) (st : State) (env : Env) : Prop :=
  fresh env0
  /\ (st0 <- boot;; run events st0) env0 = (Return st, env).

Definition reachable (st : State) (env : Env) : Prop :=
  exists env0 events, reaches env0 events st env.

End App.

(** ** Vocabulary of the statements *)

(** A progress record as the interface [GameState] declares it. *)
Definition mkGameState (currentChapter unlockedChapters : Z) : JSValue :=
  JObj [("currentChapter", JNum currentChapter);
        ("unlockedChapters", JNum unlockedChapters)].

Definition quoted (s : string) : string := String dquote (s +:+ String dquote "").

(** The text [JSON.stringify] writes for [mkGameState a b]. *)
Definition GameState_text (a b : Z) : string :=
  "{" +:+ quoted "currentChapter" +:+ ":" +:+ NumberToString a +:+
  "," +:+ quoted "unlockedChapters" +:+ ":" +:+ NumberToString b +:+ "}".

(** The text [saveGameState state] hands to [setItem]. *)
Definition save_text (state : JSValue) : string :=
  default "undefined" (JSON_stringify state).

(** What is stored under the program's key. *)
Definition stored (env : Env) : option string :=
  items (localStorage env) !! GAME_STATE_KEY.

(** The texts written under the program's key, oldest first. *)
Definition saves (t : list Effect) : list string :=
  omap (fun e =>
          match e with
          | call_setItem k v => if String.eqb k GAME_STATE_KEY then Some v else None
          | _ => None
          end) t.

Definition load_failed (e : Exn) : Effect :=
  console_error "Failed to load game state:" e.

Definition save_failed (e : Exn) : Effect :=
  console_error "Failed to save game state:" e.

(** [loadGameState], case by case. *)
Definition load_result (env : Env) : Outcome JSValue * Env :=
  let env1 := emit (call_getItem GAME_STATE_KEY) env in
  if denied (localStorage env) then
    (Return defaultGameState, emit (load_failed SecurityError) env1)
  else
    match items (localStorage env) !! GAME_STATE_KEY with
    | None => (Return defaultGameState, env1)
    | Some text =>
        if String.eqb text "" then (Return defaultGameState, env1)
        else
          match JSON_parse text with
          | None => (Return defaultGameState, emit (load_failed SyntaxError) env1)
          | Some JUndefined | Some JNull =>
              (Return defaultGameState, emit (load_failed TypeError) env1)
          | Some v =>
              if ToBoolean (member v "currentChapter")
                 && ToBoolean (member v "unlockedChapters")
              then (Return v, env1)
              else (Return defaultGameState, env1)
          end
    end.

(** The write of [text] under the program's key cannot be done. *)
Definition write_fails (s : Storage) (text : string) : bool :=
  denied s
  || match quota s with
     | Some q => (q <? storage_size (<[GAME_STATE_KEY := text]> (items s)))%nat
     | None => false
     end.

(** [saveGameState], case by case. *)
Definition save_result (state : JSValue) (env : Env) : Outcome unit * Env :=
  let env1 := emit (call_setItem GAME_STATE_KEY (save_text state)) env in
  let s := localStorage env in
  if denied s then (Return tt, emit (save_failed SecurityError) env1)
  else if write_fails s (save_text state)
  then (Return tt, emit (save_failed QuotaExceededError) env1)
  else
    (Return tt,
     with_localStorage
       {| items := <[GAME_STATE_KEY := save_text state]> (items s);
          quota := quota s; denied := false |} env1).

(** The environment after [saveGameState g]. *)
Definition saved (g : JSValue) (env : Env) : Env := snd (save_result g env).

(** The value [loadGameState] returns in [env]. *)
Definition loaded (env : Env) : JSValue :=
  match fst (loadGameState env) with
  | Return g => g
  | Throw _ => JUndefined
  end.


(** The progress written by [navigateToGame chapter]. *)
Definition entered (chapter : JSValue) (g : JSValue) : JSValue :=
  JObj (define (spread g) "currentChapter" chapter).

Definition entering (chapter : JSValue) (st : State) : State :=
  with_chapter chapter (entered chapter (gameState st)) st.

(** The environment after [playClickSound]. *)
Definition clicked (st : State) (env : Env) : Env :=
  if audioReady st then emit sound_started env else env.

(** The component shown by a render of [App], and the environment after
    the render when no timer of the previous component is left. *)
Definition rendered (v : View) (st : State) (timer : N) : State :=
  match v with
  | menu => with_view menu (S (instance st)) st
  | chapters =>
      with_chapterSelect {| visibleTooltip := None; tooltipTimeoutRef := None |}
        (with_view chapters (S (instance st)) st)
  | game =>
      with_gameView
        {| isPanelVisible := false; showRestartConfirm := false;
           isFadingIn := true; fadeTimer := timer |}
        (with_view game (S (instance st)) st)
  end.

Definition rendered_env (v : View) (st : State) (env : Env) : Env :=
  match v with
  | game =>
      with_timers
        [{| timer_id := next_timer env; due := (now env + 100)%N;
            action := FadeInDone (S (instance st)) |}]
        (next_timer env + 1)%N env
  | _ => with_timers [] (next_timer env) env
  end.

(** The timer armed by [showTooltip], and the state it leaves. *)
Definition tooltip_timer (st : State) (env : Env) : Timer :=
  {| timer_id := next_timer env; due := (now env + 3000)%N;
     action := HideTooltip (instance st) |}.

Definition tooltip_shown (index : nat) (st : State) (env : Env) : State :=
  with_chapterSelect
    {| visibleTooltip := Some index; tooltipTimeoutRef := Some (next_timer env) |} st.

(** ** Invariant of the running application *)

(** The pending timer [tm] is the one the component on screen holds. *)
Definition owned (st : State) (tm : Timer) : Prop :=
  match view st with
  | menu => False
  | chapters =>
      tooltipTimeoutRef (chapterSelect st) = Some (timer_id tm)
      /\ action tm = HideTooltip (instance st)
  | game =>
      fadeTimer (gameView st) = timer_id tm
      /\ action tm = FadeInDone (instance st)
  end.

(** Timer ids are positive and below the next one to be given out, every
    pending timer belongs to the component on screen, and [activeChapter]
    is the chapter of the progress record. *)
Record consistent (st : State) (env : Env) : Prop := {
  next_timer_positive : (0 < next_timer env)%N;
  timers_owned :
    Forall (fun tm => (0 < timer_id tm < next_timer env)%N /\ owned st tm) (timers env);
  chapter_synced : activeChapter st = member (gameState st) "currentChapter"
}.

(** Every pending timer, and every timer still to be created, has an id
    from [bound] on. *)
Definition ids_from (bound : N) (env : Env) : Prop :=
  (bound <= next_timer env)%N
  /\ Forall (fun tm => (bound <= timer_id tm)%N) (timers env).

(** A step that leaves the progress alone and saves nothing. *)
Definition progress_untouched (st : State) (env : Env) (st' : State) (env' : Env)
  : Prop :=
  gameState st' = gameState st /\ activeChapter st' = activeChapter st
  /\ localStorage env' = localStorage env
  /\ saves (trace env') = saves (trace env).

(** A step that enters [chapter] and saves the new progress once. *)
Definition progress_entered (chapter : JSValue) (st : State) (env : Env)
    (st' : State) (env' : Env) : Prop :=
  view st' = game /\ activeChapter st' = chapter
  /\ gameState st' = entered chapter (gameState st)
  /\ saves (trace env') = (saves (trace env) ++ [save_text (gameState st')])%list.

(** What every step from a consistent state guarantees: the invariant
    again, one save exactly when a chapter is entered, and no timer id
    given out twice. *)
Definition sound_step (gt_coerced : Z -> JSValue -> bool) (e : Event)
    (st : State) (env : Env) (st' : State) (env' : Env) : Prop :=
  consistent st' env'
  /\ ((exists chapter,
         enters gt_coerced e st chapter /\ progress_entered chapter st env st' env')
      \/ ((forall chapter, ~ enters gt_coerced e st chapter)
          /\ progress_untouched st env st' env'))
  /\ (forall bound, ids_from bound env -> ids_from bound env').

(** ** Auxiliary notions of the lexer proofs *)

(** The lexer state in which the first digit of a numeral is read. *)
Definition first_digit (neg : bool) : Lex := if neg then LMinus else LStart.

(** A character that ends a numeral. *)
Definition ends_number (c : ascii) : bool :=
  match digit_value c with
  | Some _ => false
  | None => negb (Ascii.eqb c "." || Ascii.eqb c "e" || Ascii.eqb c "E")
  end.

(** ** Concrete pages *)

(** A freshly loaded page whose storage holds [content] under the program's
    key, has no limit and is accessible. *)
Definition page (content : option string) : Env :=
  {| localStorage :=
       {| items := match content with
                   | Some text => {[ GAME_STATE_KEY := text ]}
                   | None => ∅
                   end;
          quota := None; denied := false |};
     now := 0; timers := []; next_timer := 1; trace := [] |}.

(** The same environment with access to the storage refused. *)
Definition refusing (env : Env) : Env :=
  with_localStorage
    {| items := items (localStorage env); quota := quota (localStorage env);
       denied := true |} env.

(** A platform on which a non-number is never below a number. *)
Definition no_coercion : Z -> JSValue -> bool := fun _ _ => false.

(** The application after [events], started on [page content]. *)
Definition scene (content : option string) (events : list Event) : State * Env :=
  match (st0 <- boot;; run no_coercion events st0) (page content) with
  | (Return st, env) => (st, env)
  | (Throw _, env) => (initial JUndefined, env)
  end.

(** ** Vocabulary of the round trip through [JSON] *)











(** ** Induction on values *)

Section JSValue_induction.

Variable P : JSValue -> Prop.
Hypothesis Hundefined : P JUndefined.
Hypothesis Hnull : P JNull.
Hypothesis Hbool : forall b, P (JBool b).
Hypothesis Hnum : forall n, P (JNum n).
Hypothesis Hstr : forall s, P (JStr s).
Hypothesis Harr : forall elems, Forall P elems -> P (JArr elems).
Hypothesis Hobj : forall props, Forall (fun kv => P (snd kv)) props -> P (JObj props).


End JSValue_induction.





(** ** Vocabulary of the properties of whole runs *)

(** A progress that passes the validation of [loadGameState]. *)
Definition validated (g : JSValue) : Prop :=
  exists props c u,
    g = JObj props
    /\ obj_get props "currentChapter" = Some c
    /\ obj_get props "unlockedChapters" = Some u
    /\ ToBoolean c = true /\ ToBoolean u = true.

(** The first character of [s] is a decimal digit. *)
Definition starts_with_digit (s : string) : Prop :=
  match s with
  | String c _ => exists d, digit_value c = Some d
  | EmptyString => False
  end.

(** What is transient on screen has its timer pending: in the menu no
    timer is pending; in the chapter list either no tooltip is visible and
    no timer is pending, or a tooltip is visible and the one pending timer
    hides it within 3000 ms; in the game either the fade-in is over and no
    timer is pending, or it is running and the one pending timer ends it
    within 100 ms. *)
Definition timed (st : State) (env : Env) : Prop :=
  match view st with
  | menu => timers env = []
  | chapters =>
      (visibleTooltip (chapterSelect st) = None /\ timers env = [])
      \/ (exists tm,
            timers env = [tm]
            /\ visibleTooltip (chapterSelect st) <> None
            /\ action tm = HideTooltip (instance st)
            /\ (due tm <= now env + 3000)%N)
  | game =>
      (isFadingIn (gameView st) = false /\ timers env = [])
      \/ (exists tm,
            timers env = [tm]
            /\ isFadingIn (gameView st) = true
            /\ action tm = FadeInDone (instance st)
            /\ (due tm <= now env + 100)%N)
  end.

(** The number of click sounds started. *)
Definition sounds (t : list Effect) : nat :=
  length (omap (fun e => match e with sound_started => Some tt | _ => None end) t).

(** The handler of [e] in view [v] calls [playClickSound]. *)
Definition clicks (e : Event) (v : View) : bool :=
  match e, v with
  | click_start, menu | click_load, menu | click_back, chapters => true
  | click_chapter index, chapters => (index <? length ROMAN_NUMERALS)%nat
  | click_choice index, game => (index <? 2)%nat
  | _, _ => false
  end.

Definition decodes (e : Event) : bool :=
  match e with
  | sound_decoded => true
  | _ => false
  end.

(** The view a step leads to. *)
Definition destination (gt_coerced : Z -> JSValue -> bool) (e : Event) (st : State)
  : View :=
  match e, view st with
  | click_start, menu => game
  | click_load, menu => chapters
  | click_chapter index, chapters =>
      if (index <? length ROMAN_NUMERALS)%nat
         && negb (isLocked gt_coerced (Z.of_nat index + 1)
                    (member (gameState st) "unlockedChapters"))
      then game else chapters
  | click_back, chapters => menu
  | click_exit, game => menu
  | _, v => v
  end.

(** What a handler leaves: the view, the audio state, the sounds started. *)
Definition summary (v : View) (click : bool) (st : State) (env : Env)
    (st' : State) (env' : Env) : Prop :=
  view st' = v
  /\ audioReady st' = audioReady st
  /\ sounds (trace env')
     = (sounds (trace env) + if audioReady st && click then 1 else 0)%nat.

(** What a step does to the view, the audio state and the sounds started;
    it does not start again the fade-in of a game that stays on screen. *)
Definition observed (gt_coerced : Z -> JSValue -> bool) (e : Event)
    (st : State) (env : Env) (st' : State) (env' : Env) : Prop :=
  view st' = destination gt_coerced e st
  /\ audioReady st' = audioReady st || decodes e
  /\ sounds (trace env')
     = (sounds (trace env) + if audioReady st && clicks e (view st) then 1 else 0)%nat
  /\ (view st = game -> view st' = game -> decodes e = false ->
      isFadingIn (gameView st') = true -> isFadingIn (gameView st) = true).

(** The storage accepts every write: access is granted and there is no quota. *)
Definition writable (env : Env) : Prop :=
  denied (localStorage env) = false /\ quota (localStorage env) = None.

(** The storage holds the text of the progress in memory. *)
Definition mirrored (st : State) (env : Env) : Prop :=
  writable env /\ stored env = Some (save_text (gameState st)).

(** The progress is a two-number record with [unlockedChapters = b], whose
    [currentChapter] is the loaded one, [a], or a chapter that is not locked. *)
Definition bounded (a b : Z) (st : State) : Prop :=
  exists c, gameState st = mkGameState c b /\ (c = a \/ (1 <= c <= b)%Z).

(** The application after [events], started on the page [env0]. *)
Definition after (env0 : Env) (events : list Event) : State * Env :=
  match (st0 <- boot;; run no_coercion events st0) env0 with
  | (Return st, env) => (st, env)
  | (Throw _, env) => (initial JUndefined, env)
  end.

Definition state_after (env0 : Env) (events : list Event) : State :=
  fst (after env0 events).

Definition env_after (env0 : Env) (events : list Event) : Env :=
  snd (after env0 events).

(** A page that holds the progress of a player in chapter 2 of 3. *)
Definition chapter_2_of_3 : Env := page (Some (GameState_text 2 3)).

(** ** Pages and progress of the round trip *)



(** * Properties *)

(** ** Numerals: what is printed is read back *)

Lemma digit_value_char (d : N) : (d < 10)%N -> digit_value (digit_char d) = Some d.
Proof.
  intros H.
  assert (d = 0 \/ d = 1 \/ d = 2 \/ d = 3 \/ d = 4 \/ d = 5 \/ d = 6 \/ d = 7
          \/ d = 8 \/ d = 9)%N as Hd by lia.
  repeat (destruct Hd as [-> | Hd]; [reflexivity |]). subst. reflexivity.
Qed.

Lemma lex_chars_app (s1 s2 : string) (st : Lex) (out : list Token) :
  lex_chars (s1 +:+ s2) st out =
  match lex_chars s1 st out with
  | Some (st', out') => lex_chars s2 st' out'
  | None => None
  end.
Proof.
  revert st out. induction s1 as [| c s1 IH]; intros st out; simpl; [reflexivity |].
  destruct (lex_char st c out) as [[st' out'] |]; [apply IH | reflexivity].
Qed.

Lemma lex_first_digit neg d out :
  (0 < d < 10)%N ->
  lex_char (first_digit neg) (digit_char d) out = Some (LInt neg d, out).
Proof.
  intros H.
  assert (d = 1 \/ d = 2 \/ d = 3 \/ d = 4 \/ d = 5 \/ d = 6 \/ d = 7
          \/ d = 8 \/ d = 9)%N as Hd by lia.
  destruct neg;
    repeat (destruct Hd as [-> | Hd]; [reflexivity |]); subst; reflexivity.
Qed.

(** Reading the digits of [n], most significant first, leaves the lexer in
    [LInt neg n]; the fuel of [decimal_go] is enough when [n < 2 ^ fuel]. *)
Lemma lex_decimal_go fuel : forall n acc neg out,
  (0 < n)%N -> (n < 2 ^ N.of_nat fuel)%N ->
  lex_chars (decimal_go fuel n acc) (first_digit neg) out =
  lex_chars acc (LInt neg n) out.
Proof.
  induction fuel as [| fuel IH]; intros n acc neg out Hpos Hlt.
  - simpl in Hlt. lia.
  - simpl decimal_go.
    assert (n mod 10 < 10)%N as Hmod by (apply N.mod_lt; lia).
    pose proof (N.div_mod n 10 ltac:(lia)) as Hdm.
    destruct (N.eqb_spec (n / 10) 0) as [Hz | Hnz].
    + simpl. rewrite Hz in Hdm. rewrite lex_first_digit by lia.
      replace (n mod 10)%N with n by lia. reflexivity.
    + rewrite IH.
      * simpl. rewrite digit_value_char by exact Hmod.
        replace (n / 10 * 10 + n mod 10)%N with n by lia. reflexivity.
      * lia.
      * rewrite Nat2N.inj_succ, N.pow_succ_r' in Hlt.
        apply N.Div0.div_lt_upper_bound. lia.
Qed.

Lemma lex_decimal n acc neg out :
  (0 < n)%N ->
  lex_chars (decimal n +:+ acc) (first_digit neg) out = lex_chars acc (LInt neg n) out.
Proof.
  intros Hpos. rewrite lex_chars_app.
  unfold decimal. rewrite lex_decimal_go; [reflexivity | exact Hpos |].
  rewrite Nat2N.inj_succ, N2Nat.id. apply N.log2_spec. exact Hpos.
Qed.

(** The numeral of [n] followed by a character that ends it is one token. *)
Lemma lex_NumberToString (n : Z) (c : ascii) (rest : string) (out : list Token) :
  ends_number c = true ->
  lex_chars (NumberToString n +:+ String c rest) LStart out =
  match lex_start c (TNumber n :: out) with
  | Some (st', out') => lex_chars rest st' out'
  | None => None
  end.
Proof.
  unfold ends_number. intros Hc.
  destruct (digit_value c) as [d |] eqn:Hd; [discriminate |].
  apply negb_true_iff in Hc.
  unfold NumberToString. destruct n as [| p | p].
  - simpl. rewrite Hd. unfold lex_after_number. rewrite Hc. reflexivity.
  - change (Z.pos p <? 0)%Z with false. cbv iota.
    rewrite (lex_decimal _ _ false) by (simpl; lia).
    simpl. rewrite Hd. unfold lex_after_number. rewrite Hc. reflexivity.
  - change (Z.neg p <? 0)%Z with true. cbv iota.
    change (String "-" (decimal (Z.abs_N (Z.neg p))) +:+ String c rest)
      with (String "-" (decimal (Z.abs_N (Z.neg p)) +:+ String c rest)).
    change (lex_chars (String "-" ?s) LStart out) with (lex_chars s LMinus out).
    rewrite (lex_decimal _ _ true) by (simpl; lia).
    simpl. rewrite Hd. unfold lex_after_number. rewrite Hc. reflexivity.
Qed.

(** ** The text of a progress record is parsed back to the record *)

Lemma append_assoc (s1 s2 s3 : string) : (s1 +:+ s2) +:+ s3 = s1 +:+ (s2 +:+ s3).
Proof.
  induction s1 as [| c s1 IH]; [reflexivity |].
  change (String c ((s1 +:+ s2) +:+ s3) = String c (s1 +:+ s2 +:+ s3)).
  by rewrite IH.
Qed.

Lemma stringify_mkGameState a b :
  JSON_stringify (mkGameState a b) = Some (GameState_text a b).
Proof.
  unfold JSON_stringify, mkGameState, GameState_text. simpl SerializeJSONProperty.
  rewrite !append_assoc. reflexivity.
Qed.

Lemma save_text_mkGameState a b : save_text (mkGameState a b) = GameState_text a b.
Proof. unfold save_text. by rewrite stringify_mkGameState. Qed.

Lemma tokenize_GameState_text a b :
  tokenize (GameState_text a b) =
  Some [TLBrace; TString "currentChapter"; TColon; TNumber a; TComma;
        TString "unlockedChapters"; TColon; TNumber b; TRBrace].
Proof.
  unfold tokenize, GameState_text.
  rewrite lex_chars_app.
  change (lex_chars "{" LStart []) with (Some (LStart, [TLBrace])).
  cbv iota beta. rewrite lex_chars_app.
  change (lex_chars (quoted "currentChapter") LStart [TLBrace])
    with (Some (LStart, [TString "currentChapter"; TLBrace])).
  cbv iota beta. rewrite lex_chars_app.
  change (lex_chars ":" LStart ?o) with (Some (LStart, TColon :: o)).
  cbv iota beta.
  change ("," +:+ ?s) with (String "," s).
  rewrite lex_NumberToString by reflexivity.
  change (lex_start "," ?o) with (Some (LStart, TComma :: o)).
  cbv iota beta. rewrite lex_chars_app.
  change (lex_chars (quoted "unlockedChapters") LStart ?o)
    with (Some (LStart, TString "unlockedChapters" :: o)).
  cbv iota beta. rewrite lex_chars_app.
  change (lex_chars ":" LStart ?o) with (Some (LStart, TColon :: o)).
  cbv iota beta.
  change (?s +:+ "}") with (s +:+ String "}" "").
  rewrite lex_NumberToString by reflexivity.
  reflexivity.
Qed.

Lemma parse_GameState_text a b :
  JSON_parse (GameState_text a b) = Some (mkGameState a b).
Proof. unfold JSON_parse. rewrite tokenize_GameState_text. reflexivity. Qed.

Lemma parsed_not_empty text v : JSON_parse text = Some v -> String.eqb text "" = false.
Proof.
  intros H. destruct (String.eqb_spec text "") as [-> |]; [discriminate | reflexivity].
Qed.

(** ** The text of a value *)











(** ** The lexer reads the text of a value as its tokens *)
















(** ** Properties in enumeration order are defined one after the other *)




(** ** The parser reads the tokens of a value as the value *)






(** ** What [JSON.stringify] writes for an object, [JSON.parse] reads back *)


(** ** What the parser returns is well formed *)


Lemma obj_update_keys props k v : map fst (obj_update props k v) = map fst props.
Proof.
  induction props as [| [k0 v0] props IH]; [reflexivity |]. cbn [obj_update].
  destruct (String.eqb_spec k0 k) as [-> |]; cbn [map fst]; [reflexivity | by rewrite IH].
Qed.












(** ** The progress store *)

Lemma loadGameState_cases env : loadGameState env = load_result env.
Proof.
  unfold loadGameState, load_result, bind, try_catch, getItem, perform, bind.
  cbn [localStorage emit with_trace].
  destruct (denied (localStorage env)); [reflexivity |].
  destruct (items (localStorage env) !! GAME_STATE_KEY) as [text |]; [| reflexivity].
  cbn [truthy_item default]. destruct (String.eqb text ""); [reflexivity |].
  cbn [negb]. change (id text) with text. unfold JSON_parse_eff.
  destruct (JSON_parse text) as [v |]; [| reflexivity].
  destruct v; try reflexivity; unfold get_member, ret; cbv beta iota;
    match goal with
    | |- context [member ?v "currentChapter"] =>
        generalize (member v "currentChapter"), (member v "unlockedChapters")
    end;
    intros c u; destruct (ToBoolean c) eqn:Hc; cbv beta iota; rewrite ?Hc;
    try destruct (ToBoolean u); reflexivity.
Qed.

Lemma saveGameState_cases state env : saveGameState state env = save_result state env.
Proof.
  unfold saveGameState, save_result, write_fails, try_catch, setItem, perform, bind.
  fold (save_text state). cbn [localStorage emit with_trace].
  destruct (denied (localStorage env)); [reflexivity |]. cbn [orb].
  destruct (quota (localStorage env)) as [q |]; [| reflexivity].
  destruct (q <? _)%nat; reflexivity.
Qed.

(** [loadGameState] always returns, and touches neither storage nor timers. *)
Lemma loadGameState_run env :
  loadGameState env = (Return (loaded env), snd (loadGameState env))
  /\ timers (snd (loadGameState env)) = timers env
  /\ next_timer (snd (loadGameState env)) = next_timer env
  /\ localStorage (snd (loadGameState env)) = localStorage env.
Proof.
  unfold loaded. rewrite loadGameState_cases. unfold load_result.
  destruct (denied (localStorage env)); [done |].
  destruct (items (localStorage env) !! GAME_STATE_KEY) as [text |]; [| done].
  destruct (String.eqb text ""); [done |].
  destruct (JSON_parse text) as [v |]; [| done].
  destruct v; try done;
    match goal with
    | |- context [ToBoolean ?a && ToBoolean ?b] => by destruct (ToBoolean a && ToBoolean b)
    end.
Qed.

(** [saveGameState] always returns. *)
Lemma saveGameState_run g env : saveGameState g env = (Return tt, saved g env).
Proof.
  rewrite saveGameState_cases. unfold saved, save_result.
  destruct (denied (localStorage env)); [reflexivity |].
  by destruct (write_fails (localStorage env) (save_text g)).
Qed.

Lemma saved_frame g env :
  timers (saved g env) = timers env /\ next_timer (saved g env) = next_timer env
  /\ now (saved g env) = now env.
Proof.
  unfold saved, save_result.
  destruct (denied (localStorage env)); [by cbn |].
  by destruct (write_fails (localStorage env) (save_text g)).
Qed.

Lemma saves_app t1 t2 : saves (t1 ++ t2) = (saves t1 ++ saves t2)%list.
Proof. apply omap_app. Qed.

Lemma saved_saves g env :
  saves (trace (saved g env)) = (saves (trace env) ++ [save_text g])%list.
Proof.
  unfold saved, save_result.
  destruct (denied (localStorage env));
    [| destruct (write_fails (localStorage env) (save_text g))];
    cbn [snd trace emit with_trace with_localStorage];
    rewrite !saves_app; cbn; by rewrite ?app_nil_r.
Qed.

(** A write that cannot be done leaves the storage as it was. *)
Lemma saved_write_fails g env :
  write_fails (localStorage env) (save_text g) = true ->
  localStorage (saved g env) = localStorage env.
Proof.
  unfold saved, save_result. intros Hf.
  destruct (denied (localStorage env)); [reflexivity |]. by rewrite Hf.
Qed.

(** C1. When nothing is stored under the key, or the stored text is not
    valid JSON, or it parses to a value in which [currentChapter] or
    [unlockedChapters] is missing (in particular a record without one of
    the two fields), [loadGameState] returns normally, its result is exactly
    [defaultGameState], and the storage is as before. *)
Theorem loadGameState_default (env : Env) :
  stored env = None
  \/ (exists text, stored env = Some text /\ JSON_parse text = None)
  \/ (exists text v,
        stored env = Some text /\ JSON_parse text = Some v
        /\ (member v "currentChapter" = JUndefined
            \/ member v "unlockedChapters" = JUndefined)) ->
  exists env',
    loadGameState env = (Return defaultGameState, env')
    /\ localStorage env' = localStorage env.
Proof.
  unfold stored. intros H. rewrite loadGameState_cases. unfold load_result.
  destruct (denied (localStorage env)); [eexists; split; reflexivity |].
  destruct H as [-> | [(text & -> & Hp) | (text & v & -> & Hp & Hmiss)]].
  - eexists; split; reflexivity.
  - destruct (String.eqb text ""); [eexists; split; reflexivity |].
    rewrite Hp. eexists; split; reflexivity.
  - rewrite (parsed_not_empty _ _ Hp), Hp.
    assert (ToBoolean (member v "currentChapter")
            && ToBoolean (member v "unlockedChapters") = false) as ->.
    { destruct Hmiss as [-> | ->]; cbn [ToBoolean]; by rewrite ?andb_false_r. }
    destruct v; eexists; split; reflexivity.
Qed.

Lemma loadGameState_default_witness :
  JSON_parse ("{" +:+ quoted "currentChapter" +:+ ":3}")
    = Some (JObj [("currentChapter", JNum 3)])
  /\ exists env',
       loadGameState (page (Some ("{" +:+ quoted "currentChapter" +:+ ":3}")))
         = (Return defaultGameState, env')
       /\ localStorage env'
          = localStorage (page (Some ("{" +:+ quoted "currentChapter" +:+ ":3}"))).
Proof.
  split; [reflexivity |].
  apply (loadGameState_default
           (page (Some ("{" +:+ quoted "currentChapter" +:+ ":3}")))).
  right; right.
  exists ("{" +:+ quoted "currentChapter" +:+ ":3}"), (JObj [("currentChapter", JNum 3)]).
  split; [reflexivity |]. split; [reflexivity |]. right. reflexivity.
Defined.

(** C7, as stated, fails: a stored record whose [currentChapter] is [0] is
    not returned as it is; [0] is falsy and the default state comes back. *)
Lemma loadGameState_zero_rejected :
  stored (page (Some (GameState_text 0 1))) = Some (GameState_text 0 1)
  /\ JSON_parse (GameState_text 0 1) = Some (mkGameState 0 1)
  /\ fst (loadGameState (page (Some (GameState_text 0 1)))) = Return defaultGameState
  /\ fst (loadGameState (page (Some (GameState_text 0 1)))) <> Return (mkGameState 0 1).
Proof.
  split; [reflexivity |]. split; [reflexivity |]. split; [reflexivity |].
  vm_compute. discriminate.
Qed.

(** C7, amended.  The validation only tests the truthiness of the two
    fields: a stored record whose two fields are numbers is returned as it
    is exactly when both are different from [0] (so [-1] is accepted), and
    is replaced by [defaultGameState] when one of them is [0]. *)
Theorem loadGameState_truthiness (env : Env) (text : string)
    (props : list (string * JSValue)) (a b : Z) :
  denied (localStorage env) = false ->
  stored env = Some text ->
  JSON_parse text = Some (JObj props) ->
  obj_get props "currentChapter" = Some (JNum a) ->
  obj_get props "unlockedChapters" = Some (JNum b) ->
  fst (loadGameState env) =
    Return (if (a =? 0)%Z || (b =? 0)%Z then defaultGameState else JObj props).
Proof.
  unfold stored. intros Hd Hs Hp Ha Hb.
  rewrite loadGameState_cases. unfold load_result.
  rewrite Hd, Hs, (parsed_not_empty _ _ Hp), Hp. cbn [member].
  rewrite Ha, Hb. simpl.
  destruct (a =? 0)%Z, (b =? 0)%Z; reflexivity.
Qed.

Lemma loadGameState_truthiness_witness :
  fst (loadGameState (page (Some (GameState_text (-1) (-1)))))
    = Return (mkGameState (-1) (-1))
  /\ fst (loadGameState (page (Some (GameState_text 2 0)))) = Return defaultGameState.
Proof.
  split.
  - apply (loadGameState_truthiness (page (Some (GameState_text (-1) (-1))))
             (GameState_text (-1) (-1))
             [("currentChapter", JNum (-1)); ("unlockedChapters", JNum (-1))]
             (-1) (-1)); reflexivity.
  - apply (loadGameState_truthiness (page (Some (GameState_text 2 0)))
             (GameState_text 2 0)
             [("currentChapter", JNum 2); ("unlockedChapters", JNum 0)]
             2 0); reflexivity.
Defined.


(** ** Objects *)

Lemma obj_get_update_eq props k v x :
  obj_get props k = Some x -> obj_get (obj_update props k v) k = Some v.
Proof.
  induction props as [| [k' v'] props IH]; simpl; [discriminate |].
  destruct (String.eqb_spec k' k) as [-> | Hne]; simpl.
  - by rewrite String.eqb_refl.
  - intros H. apply String.eqb_neq in Hne. rewrite Hne. auto.
Qed.

Lemma obj_get_update_ne props k v k' :
  k <> k' -> obj_get (obj_update props k v) k' = obj_get props k'.
Proof.
  intros Hne. induction props as [| [k1 v1] props IH]; simpl; [reflexivity |].
  destruct (String.eqb_spec k1 k) as [-> | H1]; simpl.
  - apply String.eqb_neq in Hne. by rewrite Hne.
  - by rewrite IH.
Qed.

Lemma obj_get_insert_eq props k i v :
  obj_get props k = None -> obj_get (obj_insert props k i v) k = Some v.
Proof.
  induction props as [| [k' v'] props IH]; simpl.
  - by rewrite String.eqb_refl.
  - destruct (String.eqb k' k) eqn:Hk; [discriminate |]. intros H.
    destruct i as [n |]; [destruct (array_index k') as [n' |];
                          [destruct (n <? n')%N |] |];
      simpl; rewrite ?String.eqb_refl, ?Hk; auto.
Qed.

Lemma obj_get_insert_ne props k i v k' :
  k <> k' -> obj_get (obj_insert props k i v) k' = obj_get props k'.
Proof.
  intros Hne. apply String.eqb_neq in Hne.
  induction props as [| [k1 v1] props IH]; simpl.
  - by rewrite Hne.
  - destruct i as [n |]; [destruct (array_index k1) as [n' |];
                          [destruct (n <? n')%N |] |];
      simpl; rewrite ?Hne, ?IH; reflexivity.
Qed.

Lemma obj_get_define_eq props k v : obj_get (define props k v) k = Some v.
Proof.
  unfold define. destruct (obj_get props k) eqn:H.
  - eapply obj_get_update_eq; eauto.
  - by apply obj_get_insert_eq.
Qed.

Lemma obj_get_define_ne props k v k' :
  k <> k' -> obj_get (define props k v) k' = obj_get props k'.
Proof.
  intros Hne. unfold define. destruct (obj_get props k).
  - by apply obj_get_update_ne.
  - by apply obj_get_insert_ne.
Qed.

Lemma entered_currentChapter chapter g :
  member (entered chapter g) "currentChapter" = chapter.
Proof. unfold entered, member. by rewrite obj_get_define_eq. Qed.

(** [{...prev, currentChapter: chapter}] has the [unlockedChapters] of [prev]. *)
Lemma entered_unlockedChapters chapter g :
  member (entered chapter g) "unlockedChapters" = member g "unlockedChapters".
Proof.
  unfold entered, member.
  rewrite obj_get_define_ne by discriminate.
  destruct g; reflexivity.
Qed.

(** ** What each handler does *)

Lemma playClickSound_run st env : playClickSound st env = (Return tt, clicked st env).
Proof. unfold playClickSound, clicked. by destruct (audioReady st). Qed.

Lemma clicked_frame st env :
  localStorage (clicked st env) = localStorage env
  /\ saves (trace (clicked st env)) = saves (trace env)
  /\ timers (clicked st env) = timers env
  /\ next_timer (clicked st env) = next_timer env
  /\ now (clicked st env) = now env.
Proof.
  unfold clicked. destruct (audioReady st); [| done].
  cbn. rewrite saves_app. cbn. by rewrite app_nil_r.
Qed.

Lemma with_timers_same env : with_timers (timers env) (next_timer env) env = env.
Proof. by destruct env. Qed.

Lemma filter_all_cleared (id : N) (l : list Timer) :
  Forall (fun tm => timer_id tm = id) l -> filter (fun tm => timer_id tm <> id) l = [].
Proof.
  induction 1 as [| tm l Hid _ IH]; [reflexivity |].
  rewrite filter_cons. by case_decide.
Qed.

Lemma Forall_filtered {A} (P Q : A -> Prop) `{forall x, Decision (P x)} (l : list A) :
  Forall Q l -> Forall Q (filter P l).
Proof.
  rewrite !Forall_forall. intros HQ x Hx. apply list_elem_of_filter in Hx.
  apply HQ, Hx.
Qed.

(** The cleanup of the component on screen leaves no timer pending. *)
Lemma unmount_run st env :
  consistent st env -> unmount st env = (Return tt, with_timers [] (next_timer env) env).
Proof.
  intros [_ Hown _]. unfold unmount, owned in *.
  destruct (view st).
  - destruct (timers env) as [| tm l] eqn:Ht.
    + rewrite <- Ht. by rewrite with_timers_same.
    + exfalso. inversion Hown as [| ? ? [_ []] _].
  - destruct (tooltipTimeoutRef (chapterSelect st)) as [id |] eqn:Href; cbn.
    + destruct (N.eqb_spec id 0) as [-> | Hid]; cbn.
      * destruct (timers env) as [| tm l] eqn:Ht.
        -- rewrite <- Ht. by rewrite with_timers_same.
        -- exfalso. inversion Hown as [| ? ? [Hpos [Heq _]] _]. simplify_eq. lia.
      * unfold clearTimeout. rewrite filter_all_cleared; [reflexivity |].
        eapply Forall_impl; [exact Hown |]. intros tm [_ [Heq _]]. by simplify_eq.
    + destruct (timers env) as [| tm l] eqn:Ht.
      * rewrite <- Ht. by rewrite with_timers_same.
      * exfalso. inversion Hown as [| ? ? [_ [Heq _]] _]. discriminate.
  - unfold clearTimeout. rewrite filter_all_cleared; [reflexivity |].
    eapply Forall_impl; [exact Hown |]. intros tm [_ [Heq _]]. by rewrite Heq.
Qed.

Lemma consistent_env st env env' :
  timers env' = timers env -> next_timer env' = next_timer env ->
  consistent st env -> consistent st env'.
Proof. intros Ht Hn [H1 H2 H3]. split; rewrite ?Ht, ?Hn; assumption. Qed.

Lemma owned_frame st st' tm :
  view st' = view st -> instance st' = instance st ->
  tooltipTimeoutRef (chapterSelect st') = tooltipTimeoutRef (chapterSelect st) ->
  fadeTimer (gameView st') = fadeTimer (gameView st) ->
  owned st tm -> owned st' tm.
Proof. unfold owned. intros -> -> -> ->. done. Qed.

Lemma consistent_state st st' env :
  view st' = view st -> instance st' = instance st ->
  tooltipTimeoutRef (chapterSelect st') = tooltipTimeoutRef (chapterSelect st) ->
  fadeTimer (gameView st') = fadeTimer (gameView st) ->
  gameState st' = gameState st -> activeChapter st' = activeChapter st ->
  consistent st env -> consistent st' env.
Proof.
  intros Hv Hi Hr Hf Hg Ha [H1 H2 H3]. split; [assumption | |].
  - eapply Forall_impl; [exact H2 |]. intros tm [? ?]. split; [assumption |].
    by apply (owned_frame st).
  - by rewrite Ha, Hg.
Qed.

Lemma clicked_consistent st st' env : consistent st' env -> consistent st' (clicked st env).
Proof. apply consistent_env; apply clicked_frame. Qed.

Lemma saved_consistent st g env : consistent st env -> consistent st (saved g env).
Proof. apply consistent_env; apply saved_frame. Qed.

Lemma emit_consistent e st env : consistent st env -> consistent st (emit e env).
Proof. by apply consistent_env. Qed.

Lemma render_run v st env :
  consistent st env ->
  render v st env = (Return (rendered v st (next_timer env)), rendered_env v st env).
Proof.
  intros H. unfold render, bind. rewrite (unmount_run _ _ H).
  destruct v; reflexivity.
Qed.

Lemma render_consistent v st env :
  consistent st env -> consistent (rendered v st (next_timer env)) (rendered_env v st env).
Proof.
  intros [Hpos _ Hsync]. destruct v; split; cbn; try assumption; try lia;
    try constructor; try constructor; cbn; try lia; try done.
Qed.

Lemma with_chapter_consistent chapter st env :
  consistent st env -> consistent (entering chapter st) env.
Proof.
  intros [H1 H2 _]. split; [assumption | assumption |].
  cbn [entering with_chapter activeChapter gameState].
  by rewrite entered_currentChapter.
Qed.

Lemma navigateToGame_run chapter st env :
  consistent st env ->
  navigateToGame chapter st env =
    (Return (rendered game (entering chapter st) (next_timer env)),
     saved (entered chapter (gameState st))
       (rendered_env game (entering chapter st) (clicked st env))).
Proof.
  intros H. unfold navigateToGame, bind. rewrite playClickSound_run.
  fold (entered chapter (gameState st)). fold (entering chapter st).
  rewrite render_run by (apply clicked_consistent, with_chapter_consistent, H).
  rewrite saveGameState_run.
  unfold clicked. by destruct (audioReady st).
Qed.

Lemma navigateToGame_consistent chapter st env :
  consistent st env ->
  consistent (rendered game (entering chapter st) (next_timer env))
    (saved (entered chapter (gameState st))
       (rendered_env game (entering chapter st) (clicked st env))).
Proof.
  intros H. apply saved_consistent.
  replace (next_timer env) with (next_timer (clicked st env))
    by apply clicked_frame.
  apply render_consistent, clicked_consistent, with_chapter_consistent, H.
Qed.

Lemma navigateToGame_progress chapter st env :
  progress_entered chapter st env
    (rendered game (entering chapter st) (next_timer env))
    (saved (entered chapter (gameState st))
       (rendered_env game (entering chapter st) (clicked st env))).
Proof.
  unfold progress_entered. cbn [rendered with_gameView with_view entering with_chapter
    view activeChapter gameState].
  repeat split. rewrite saved_saves. cbn [rendered_env with_timers trace].
  by rewrite (proj1 (proj2 (clicked_frame st env))).
Qed.

Lemma showTooltip_run index st env :
  consistent st env -> view st = chapters ->
  showTooltip index st env =
    (Return (tooltip_shown index st env),
     with_timers [tooltip_timer st env] (next_timer env + 1)%N (clicked st env)).
Proof.
  intros H Hv. unfold showTooltip, bind. rewrite playClickSound_run.
  pose proof (unmount_run _ _ (clicked_consistent st st env H)) as Hu.
  unfold unmount in Hu. rewrite Hv in Hu. cbv zeta. rewrite Hu.
  unfold clicked. by destruct (audioReady st).
Qed.

Lemma showTooltip_consistent index st env :
  consistent st env -> view st = chapters ->
  consistent (tooltip_shown index st env)
    (with_timers [tooltip_timer st env] (next_timer env + 1)%N (clicked st env)).
Proof.
  intros [Hpos _ Hsync] Hv. split; cbn; [lia | | assumption].
  constructor; [| constructor]. unfold owned. cbn. rewrite Hv.
  split; [lia | done].
Qed.

(** A timer that fires changes neither the view nor the progress. *)
Lemma fire_frame a st :
  view (fire a st) = view st /\ gameState (fire a st) = gameState st
  /\ activeChapter (fire a st) = activeChapter st
  /\ instance (fire a st) = instance st
  /\ audioReady (fire a st) = audioReady st
  /\ tooltipTimeoutRef (chapterSelect (fire a st)) = tooltipTimeoutRef (chapterSelect st)
  /\ fadeTimer (gameView (fire a st)) = fadeTimer (gameView st).
Proof.
  unfold fire. destruct a, (view st) eqn:Hv; try done; case_decide; by rewrite ?Hv.
Qed.

Lemma fired_frame (l : list Timer) st :
  let st' := fold_left (fun s tm => fire (action tm) s) l st in
  view st' = view st /\ gameState st' = gameState st
  /\ activeChapter st' = activeChapter st
  /\ instance st' = instance st
  /\ audioReady st' = audioReady st
  /\ tooltipTimeoutRef (chapterSelect st') = tooltipTimeoutRef (chapterSelect st)
  /\ fadeTimer (gameView st') = fadeTimer (gameView st).
Proof.
  revert st. induction l as [| tm l IH]; intros st; [done |].
  cbn [fold_left]. specialize (IH (fire (action tm) st)).
  destruct (fire_frame (action tm) st) as (E1 & E2 & E3 & E4 & E5 & E6 & E7).
  rewrite <- E1, <- E2, <- E3, <- E4, <- E5, <- E6, <- E7. exact IH.
Qed.

Lemma elapse_consistent ms st env :
  consistent st env ->
  exists st' env', elapse ms st env = (Return st', env') /\ consistent st' env'.
Proof.
  intros [Hpos Hown Hsync]. unfold elapse. eexists _, _. split; [reflexivity |].
  set (fired := filter _ (timers env)).
  pose proof (fired_frame fired st) as (Hv & Hg & Ha & Hi & _ & Hr & Hf). cbv zeta in *.
  split; cbn.
  - assumption.
  - apply Forall_forall. intros tm Htm. apply list_elem_of_filter in Htm.
    destruct Htm as [_ Htm]. rewrite Forall_forall in Hown.
    destruct (Hown tm) as [Hid Ho]; [assumption |].
    split; [assumption |]. by apply (owned_frame st).
  - by rewrite Ha, Hg.
Qed.

Lemma elapse_pending ms st env tm :
  timers env = [tm] -> (now env + ms < due tm)%N ->
  elapse ms st env = (Return st, with_clock (now env + ms)%N [tm] env).
Proof.
  intros Ht Hlt. unfold elapse. rewrite Ht.
  rewrite filter_cons_False, filter_nil by lia.
  rewrite filter_cons_True, filter_nil by lia. reflexivity.
Qed.

Lemma elapse_fires ms st env tm :
  timers env = [tm] -> (due tm <= now env + ms)%N ->
  elapse ms st env = (Return (fire (action tm) st), with_clock (now env + ms)%N [] env).
Proof.
  intros Ht Hle. unfold elapse. rewrite Ht.
  rewrite filter_cons_True, filter_nil by lia.
  rewrite filter_cons_False, filter_nil by lia. reflexivity.
Qed.

Lemma ids_from_env bound env env' :
  timers env' = timers env -> next_timer env' = next_timer env ->
  ids_from bound env -> ids_from bound env'.
Proof. unfold ids_from. by intros -> ->. Qed.

Lemma ids_from_rendered bound v st env :
  ids_from bound env -> ids_from bound (rendered_env v st env).
Proof.
  intros [Hn _]. destruct v; split; cbn; try lia; try constructor; cbn; try lia;
    constructor.
Qed.

Lemma ids_from_clicked bound st env : ids_from bound env -> ids_from bound (clicked st env).
Proof. apply ids_from_env; apply clicked_frame. Qed.

Lemma ids_from_saved bound g env : ids_from bound env -> ids_from bound (saved g env).
Proof. apply ids_from_env; apply saved_frame. Qed.

Lemma boot_run env :
  boot env = (Return (initial (loaded env)), saved (loaded env) (snd (loadGameState env))).
Proof.
  unfold boot, bind. destruct (loadGameState_run env) as (Hl & _). rewrite Hl.
  cbn [snd]. by rewrite saveGameState_run.
Qed.

Lemma boot_consistent env :
  fresh env ->
  consistent (initial (loaded env)) (saved (loaded env) (snd (loadGameState env))).
Proof.
  intros [Ht Hn]. apply saved_consistent.
  destruct (loadGameState_run env) as (_ & Ht' & Hn' & _).
  split; [by rewrite Hn' | by rewrite Ht', Ht | done].
Qed.

(** ** The machine *)

Section Machine.

Variable gt_coerced : Z -> JSValue -> bool.

Ltac untouched := right; split; [intros c; tauto | done].

(** The event is not handled in this view, or its guard fails. *)
Ltac skipped :=
  eexists _, _; split; [reflexivity |];
  split; [assumption | split; [untouched | done]].

(** The event only changes the state local to [GameView]. *)
Ltac local_to st :=
  eexists _, _; split; [reflexivity |];
  split; [by apply (consistent_state st) | split; [untouched | done]].

(** The event re-renders [App] in view [v] without touching the progress. *)
Ltac rerendered v st :=
  eexists _, _; split; [reflexivity |];
  split; [by apply render_consistent, (consistent_state st) |];
  split; [untouched |];
  intros bound Hb; by apply (ids_from_rendered _ v st).

Lemma elapse_sound ms st env :
  consistent st env ->
  exists st' env', elapse ms st env = (Return st', env')
                   /\ sound_step gt_coerced (time_passes ms) st env st' env'.
Proof.
  intros H. destruct (elapse_consistent ms st env H) as (st' & env' & Hel & Hc).
  exists st', env'. split; [exact Hel |]. split; [exact Hc |].
  unfold elapse in Hel. injection Hel as <- <-. split.
  - right. split; [intros c; unfold enters; destruct (view st); tauto |].
    destruct (fired_frame (filter (fun tm => (due tm <= now env + ms)%N) (timers env)) st)
      as (_ & ? & ? & _). by repeat split.
  - intros bound [Hn Hl]. split; [assumption |]. cbn. by apply Forall_filtered.
Qed.

Lemma step_sound e st env :
  consistent st env ->
  exists st' env', step gt_coerced e st env = (Return st', env')
                   /\ sound_step gt_coerced e st env st' env'.
Proof.
  intros H. destruct e; try apply (elapse_sound _ _ _ H);
    unfold sound_step, enters, progress_untouched, step;
    destruct (view st) eqn:Hv; try skipped.
  - (* click_start *)
    rewrite navigateToGame_run by assumption.
    eexists _, _. split; [reflexivity |].
    split; [by apply navigateToGame_consistent |]. split.
    + left. eexists. split; [reflexivity | apply navigateToGame_progress].
    + intros bound Hb.
      by apply ids_from_saved, (ids_from_rendered _ game), ids_from_clicked.
  - (* click_load *)
    unfold handleNavigation, bind. rewrite playClickSound_run.
    rewrite render_run by (by apply clicked_consistent).
    eexists _, _. split; [reflexivity |].
    split; [by apply render_consistent, clicked_consistent |]. split.
    + right. split; [intros c; tauto |].
      destruct (clicked_frame st env) as (? & ? & _). by repeat split.
    + intros bound Hb. by apply (ids_from_rendered _ chapters st), ids_from_clicked.
  - (* click_chapter *)
    destruct (Nat.ltb_spec index (length ROMAN_NUMERALS)) as [Hlt | Hge].
    + cbv zeta. destruct (isLocked _ _ _) eqn:Hlock.
      * rewrite showTooltip_run by assumption.
        eexists _, _. split; [reflexivity |].
        split; [by apply showTooltip_consistent |]. split.
        -- right. split; [intros c (_ & ? & _); congruence |].
           destruct (clicked_frame st env) as (? & ? & _). by repeat split.
        -- intros bound [Hn _]. split; cbn; [lia |].
           constructor; [cbn; lia | constructor].
      * rewrite navigateToGame_run by assumption.
        eexists _, _. split; [reflexivity |].
        split; [by apply navigateToGame_consistent |]. split.
        -- left. eexists. split; [done | apply navigateToGame_progress].
        -- intros bound Hb.
           by apply ids_from_saved, (ids_from_rendered _ game), ids_from_clicked.
    + eexists _, _. split; [reflexivity |]. split; [assumption |].
      split; [right; split; [intros c (? & _); lia | done] | done].
  - (* click_back *)
    unfold handleNavigation, bind. rewrite playClickSound_run.
    rewrite render_run by (by apply clicked_consistent).
    eexists _, _. split; [reflexivity |].
    split; [by apply render_consistent, clicked_consistent |]. split.
    + right. split; [intros c; tauto |].
      destruct (clicked_frame st env) as (? & ? & _). by repeat split.
    + intros bound Hb. by apply (ids_from_rendered _ menu st), ids_from_clicked.
  - (* click_trigger *) local_to st.
  - (* click_panel *) local_to st.
  - (* click_exit *)
    unfold handleSilentNavigation. rewrite render_run by assumption.
    eexists _, _. split; [reflexivity |].
    split; [by apply render_consistent |]. split; [untouched |].
    intros bound Hb. by apply (ids_from_rendered _ menu st).
  - (* click_restart *) local_to st.
  - (* click_yes *)
    destruct (showRestartConfirm (gameView st)); [| skipped].
    eexists _, _. split; [reflexivity |].
    split; [by apply emit_consistent, (consistent_state st) |].
    split; [right; split; [intros c; tauto |] | done].
    repeat split. cbn. rewrite saves_app. cbn. by rewrite app_nil_r.
  - (* click_no *)
    destruct (showRestartConfirm (gameView st)); [local_to st | skipped].
  - (* click_choice *)
    destruct (index <? 2)%nat; [| skipped].
    unfold handleChoice, bind, perform. rewrite playClickSound_run.
    eexists _, _. split; [reflexivity |].
    split; [by apply clicked_consistent, emit_consistent |]. split.
    + right. split; [intros c; tauto |].
      destruct (clicked_frame st (emit (console_log_choice index) env)) as (-> & -> & _).
      repeat split. cbn. rewrite saves_app. cbn. by rewrite app_nil_r.
    + intros bound Hb. by apply ids_from_clicked.
  - (* sound_decoded *)
    rewrite render_run by (by apply (consistent_state st)). rerendered menu st.
  - rewrite render_run by (by apply (consistent_state st)). rerendered chapters st.
  - rewrite render_run by (by apply (consistent_state st)). rerendered game st.
Qed.

Lemma step_unlockedChapters e st env st' env' :
  sound_step gt_coerced e st env st' env' ->
  member (gameState st') "unlockedChapters" = member (gameState st) "unlockedChapters".
Proof.
  intros (_ & [(c & _ & _ & _ & -> & _) | (_ & -> & _)] & _);
    [apply entered_unlockedChapters | reflexivity].
Qed.

(** A run from a consistent state returns, keeps the invariant and the
    [unlockedChapters] of the progress, and reuses no timer id. *)
Lemma run_sound events : forall st env,
  consistent st env ->
  exists st' env',
    run gt_coerced events st env = (Return st', env')
    /\ consistent st' env'
    /\ member (gameState st') "unlockedChapters"
       = member (gameState st) "unlockedChapters"
    /\ (forall bound, ids_from bound env -> ids_from bound env').
Proof.
  induction events as [| e events IH]; intros st env H.
  - eexists _, _. split; [reflexivity |]. split; [assumption |]. split; [reflexivity | auto].
  - destruct (step_sound e st env H) as (st1 & env1 & Hstep & Hs).
    pose proof (step_unlockedChapters _ _ _ _ _ Hs) as Hu.
    destruct Hs as (H1 & _ & Hids).
    destruct (IH st1 env1 H1) as (st2 & env2 & Hrun & H2 & Hu2 & Hids2).
    exists st2, env2. split; [cbn [run]; unfold bind; by rewrite Hstep |].
    split; [assumption |]. split; [by rewrite Hu2 | auto].
Qed.

Lemma reaches_consistent env0 events st env :
  reaches gt_coerced env0 events st env -> consistent st env.
Proof.
  intros [Hf Hrun]. unfold bind in Hrun. rewrite boot_run in Hrun.
  destruct (run_sound events _ _ (boot_consistent _ Hf)) as (st' & env' & Hr & Hc & _).
  rewrite Hr in Hrun. by simplify_eq.
Qed.

Lemma reachable_consistent st env : reachable gt_coerced st env -> consistent st env.
Proof. intros (env0 & events & H). by eapply reaches_consistent. Qed.

Lemma isLocked_number (n u : Z) : isLocked gt_coerced n (JNum u) = (n >? u)%Z.
Proof. reflexivity. Qed.

Lemma locked_click_run index st env :
  consistent st env -> view st = chapters ->
  (index < length ROMAN_NUMERALS)%nat ->
  isLocked gt_coerced (Z.of_nat index + 1) (member (gameState st) "unlockedChapters")
    = true ->
  step gt_coerced (click_chapter index) st env =
    (Return (tooltip_shown index st env),
     with_timers [tooltip_timer st env] (next_timer env + 1)%N (clicked st env)).
Proof.
  intros H Hv Hi Hlock. unfold step. rewrite Hv.
  apply Nat.ltb_lt in Hi. rewrite Hi. cbv zeta. rewrite Hlock.
  by apply showTooltip_run.
Qed.

Lemma unlocked_click_run index st env :
  consistent st env -> view st = chapters ->
  (index < length ROMAN_NUMERALS)%nat ->
  isLocked gt_coerced (Z.of_nat index + 1) (member (gameState st) "unlockedChapters")
    = false ->
  step gt_coerced (click_chapter index) st env =
    (Return (rendered game (entering (JNum (Z.of_nat index + 1)) st) (next_timer env)),
     saved (entered (JNum (Z.of_nat index + 1)) (gameState st))
       (rendered_env game (entering (JNum (Z.of_nat index + 1)) st) (clicked st env))).
Proof.
  intros H Hv Hi Hlock. unfold step. rewrite Hv.
  apply Nat.ltb_lt in Hi. rewrite Hi. cbv zeta. rewrite Hlock.
  by apply navigateToGame_run.
Qed.

(** ** The navigation machine: gate, navigation, tooltips *)

(** C3. On numbers [isLocked n u] is the comparison [n > u]: it is [true]
    exactly when [n > u], and at the boundary [isLocked u u] is [false].
    [isLocked] is a function of its two arguments alone: it neither reads
    nor changes the environment. *)
Theorem isLocked_is_greater_than (n u : Z) :
  isLocked gt_coerced n (JNum u) = (n >? u)%Z
  /\ (isLocked gt_coerced n (JNum u) = true <-> (n > u)%Z)
  /\ isLocked gt_coerced u (JNum u) = false.
Proof.
  unfold isLocked, js_gt. split; [reflexivity |]. split.
  - rewrite Z.gtb_ltb, Z.ltb_lt. lia.
  - rewrite Z.gtb_ltb. apply Z.ltb_irrefl.
Qed.

(** C4. In a reachable state showing the chapter list, the click on a
    chapter [n = index + 1] with [n > unlockedChapters] returns with a state
    that differs from the previous one only in the state of
    [ChapterSelect]: the tooltip of [index] is visible and its timer, due
    in 3000 ms, is the only one pending.  The view is still [chapters], the
    progress and the active chapter are the same, the storage is untouched,
    and nothing is traced but the click sound. *)
Theorem click_locked_chapter (st : State) (env : Env) (index : nat) (u : Z) :
  reachable gt_coerced st env ->
  view st = chapters ->
  (index < length ROMAN_NUMERALS)%nat ->
  member (gameState st) "unlockedChapters" = JNum u ->
  (Z.of_nat index + 1 > u)%Z ->
  exists st' env',
    step gt_coerced (click_chapter index) st env = (Return st', env')
    /\ st' = with_chapterSelect
               {| visibleTooltip := Some index;
                  tooltipTimeoutRef := Some (next_timer env) |} st
    /\ view st' = chapters
    /\ gameState st' = gameState st
    /\ activeChapter st' = activeChapter st
    /\ timers env' = [{| timer_id := next_timer env; due := (now env + 3000)%N;
                         action := HideTooltip (instance st) |}]
    /\ localStorage env' = localStorage env
    /\ trace env' = (trace env ++ if audioReady st then [sound_started] else [])%list.
Proof.
  intros Hr Hv Hi Hu Hgt. pose proof (reachable_consistent _ _ Hr) as H.
  rewrite locked_click_run; try assumption.
  - eexists _, _. split; [reflexivity |]. split; [reflexivity |].
    repeat split; try assumption.
    + unfold clicked. by destruct (audioReady st).
    + unfold clicked. destruct (audioReady st); cbn; [reflexivity | by rewrite app_nil_r].
  - rewrite Hu, isLocked_number, Z.gtb_ltb. apply Z.ltb_lt. lia.
Qed.

(** C5. No step of the program changes [unlockedChapters]: every step from
    a reachable state keeps that field of the progress, every reachable
    state has the [unlockedChapters] that [loadGameState] returned when
    [App] mounted, and when that was the default state it is [1] for ever. *)
Theorem unlockedChapters_never_changes :
  (forall st env e st' env',
     reachable gt_coerced st env ->
     step gt_coerced e st env = (Return st', env') ->
     member (gameState st') "unlockedChapters" = member (gameState st) "unlockedChapters")
  /\ (forall env0 events st env,
        reaches gt_coerced env0 events st env ->
        member (gameState st) "unlockedChapters" = member (loaded env0) "unlockedChapters")
  /\ (forall env0 events st env,
        reaches gt_coerced env0 events st env ->
        loaded env0 = defaultGameState ->
        member (gameState st) "unlockedChapters" = JNum 1).
Proof.
  assert (forall env0 events st env,
            reaches gt_coerced env0 events st env ->
            member (gameState st) "unlockedChapters"
            = member (loaded env0) "unlockedChapters") as Hrun.
  { intros env0 events st env [Hf Hrun]. unfold bind in Hrun. rewrite boot_run in Hrun.
    destruct (run_sound events _ _ (boot_consistent _ Hf))
      as (st' & env' & Hr & _ & Hu & _).
    rewrite Hr in Hrun. injection Hrun as <- <-. exact Hu. }
  split; [| split].
  - intros st env e st' env' Hr Hstep.
    pose proof (reachable_consistent _ _ Hr) as H.
    destruct (step_sound e st env H) as (st1 & env1 & Hstep1 & Hs).
    rewrite Hstep in Hstep1. injection Hstep1 as <- <-.
    by eapply step_unlockedChapters.
  - exact Hrun.
  - intros env0 events st env Hr Hd. rewrite (Hrun _ _ _ _ Hr), Hd. reflexivity.
Qed.

(** C8. [saveGameState] always returns normally.  When the write throws,
    whatever the error (access refused, quota exceeded), the error is only
    logged and the storage is as it was before the call.  At the level of
    [App]: entering a chapter while the write cannot be done still returns
    with the new progress in memory, and the storage still holds the old
    content. *)
Theorem saveGameState_swallows (state : JSValue) (env : Env) :
  (exists env', saveGameState state env = (Return tt, env'))
  /\ (forall e env1,
        setItem GAME_STATE_KEY (save_text state) env = (Throw e, env1) ->
        saveGameState state env = (Return tt, emit (save_failed e) env1)
        /\ localStorage (emit (save_failed e) env1) = localStorage env
        /\ trace (emit (save_failed e) env1)
           = (trace env ++ [call_setItem GAME_STATE_KEY (save_text state);
                            save_failed e])%list)
  /\ (forall chapter st,
        reachable gt_coerced st env ->
        write_fails (localStorage env) (save_text (entered chapter (gameState st))) = true ->
        exists st' env',
          navigateToGame chapter st env = (Return st', env')
          /\ gameState st' = entered chapter (gameState st)
          /\ activeChapter st' = chapter
          /\ localStorage env' = localStorage env).
Proof.
  split; [| split].
  - rewrite saveGameState_run. by eexists.
  - intros e env1 Hthrow.
    unfold saveGameState, try_catch. fold (save_text state). rewrite Hthrow.
    split; [reflexivity |].
    revert Hthrow. unfold setItem, perform, bind. cbn [localStorage emit with_trace].
    destruct (denied (localStorage env)).
    + intros [= <- <-]. cbn. rewrite <- app_assoc. split; reflexivity.
    + destruct (quota (localStorage env)) as [q |]; [| discriminate].
      destruct (q <? _)%nat; [| discriminate].
      intros [= <- <-]. cbn. rewrite <- app_assoc. split; reflexivity.
  - intros chapter st Hr Hf. pose proof (reachable_consistent _ _ Hr) as H.
    rewrite navigateToGame_run by assumption.
    eexists _, _. split; [reflexivity |]. split; [reflexivity |]. split; [reflexivity |].
    rewrite saved_write_fails.
    + cbn [rendered_env with_timers localStorage]. apply clicked_frame.
    + cbn [rendered_env with_timers localStorage].
      by rewrite (proj1 (clicked_frame st env)).
Qed.

(** C10. In a reachable state showing the game, the exit button returns
    with the view [menu] and the same progress, active chapter and audio
    state; nothing is traced (no click sound, no [setItem], no log) and the
    storage is untouched.  The start button then shows the game again, on
    the same chapter. *)
Theorem exit_is_silent (st : State) (env : Env) :
  reachable gt_coerced st env ->
  view st = game ->
  exists st1 env1,
    step gt_coerced click_exit st env = (Return st1, env1)
    /\ view st1 = menu
    /\ gameState st1 = gameState st
    /\ activeChapter st1 = activeChapter st
    /\ audioReady st1 = audioReady st
    /\ trace env1 = trace env
    /\ localStorage env1 = localStorage env
    /\ exists st2 env2,
         step gt_coerced click_start st1 env1 = (Return st2, env2)
         /\ view st2 = game
         /\ activeChapter st2 = activeChapter st.
Proof.
  intros Hr Hv. pose proof (reachable_consistent _ _ Hr) as H.
  unfold step at 1. rewrite Hv. unfold handleSilentNavigation.
  rewrite render_run by assumption.
  eexists _, _. split; [reflexivity |].
  repeat (split; [reflexivity |]).
  pose proof (render_consistent menu st env H) as H1.
  unfold step. cbn [rendered view with_view].
  rewrite navigateToGame_run by exact H1.
  eexists _, _. split; [reflexivity |]. split; [reflexivity |].
  cbn. symmetry. apply (chapter_synced _ _ H).
Qed.

(** C9. In a reachable state showing the chapter list, let the locked
    chapter at index [A] be clicked, [d1 < 3000] ms pass, and the locked
    chapter at index [B] be clicked.  Before the second click the tooltip
    of [A] is visible and its timer pending.  After it the tooltip of [B]
    is visible and the only pending timer is [B]'s, due 3000 ms after the
    second click: the timer of [A] is gone, and in no run that follows is a
    timer with its id pending again, so it never fires.  The tooltip of [B]
    stays while less than 3000 ms pass and is cleared, with no timer left,
    once 3000 ms have passed.  The cleanup of [ChapterSelect] leaves no
    timer pending, for instance when the back button unmounts it. *)
Theorem newer_tooltip_supersedes (st : State) (env : Env) (A B : nat) (d1 : N) :
  reachable gt_coerced st env ->
  view st = chapters ->
  (A < length ROMAN_NUMERALS)%nat ->
  (B < length ROMAN_NUMERALS)%nat ->
  isLocked gt_coerced (Z.of_nat A + 1) (member (gameState st) "unlockedChapters") = true ->
  isLocked gt_coerced (Z.of_nat B + 1) (member (gameState st) "unlockedChapters") = true ->
  (d1 < 3000)%N ->
  let timerA := {| timer_id := next_timer env; due := (now env + 3000)%N;
                   action := HideTooltip (instance st) |} in
  let timerB := {| timer_id := (next_timer env + 1)%N; due := (now env + d1 + 3000)%N;
                   action := HideTooltip (instance st) |} in
  (exists st1 env1,
     run gt_coerced [click_chapter A; time_passes d1] st env = (Return st1, env1)
     /\ visibleTooltip (chapterSelect st1) = Some A
     /\ timers env1 = [timerA])
  /\ (exists st3 env3,
        run gt_coerced [click_chapter A; time_passes d1; click_chapter B] st env
          = (Return st3, env3)
        /\ view st3 = chapters
        /\ visibleTooltip (chapterSelect st3) = Some B
        /\ timers env3 = [timerB]
        /\ now env3 = (now env + d1)%N
        /\ (forall d2, (d2 < 3000)%N ->
              exists st4 env4,
                step gt_coerced (time_passes d2) st3 env3 = (Return st4, env4)
                /\ visibleTooltip (chapterSelect st4) = Some B
                /\ timers env4 = [timerB])
        /\ (forall d2, (3000 <= d2)%N ->
              exists st4 env4,
                step gt_coerced (time_passes d2) st3 env3 = (Return st4, env4)
                /\ visibleTooltip (chapterSelect st4) = None
                /\ timers env4 = [])
        /\ (forall events st' env',
              run gt_coerced events st3 env3 = (Return st', env') ->
              Forall (fun tm => timer_id tm <> timer_id timerA) (timers env')))
  /\ unmount st env = (Return tt, with_timers [] (next_timer env) env)
  /\ (exists st' env',
        step gt_coerced click_back st env = (Return st', env')
        /\ view st' = menu /\ timers env' = []).
Proof.
  intros Hr Hv HA HB HlockA HlockB Hd1 timerA timerB.
  pose proof (reachable_consistent _ _ Hr) as H.
  (* the click on A *)
  pose proof (locked_click_run A st env H Hv HA HlockA) as HstepA.
  pose proof (showTooltip_consistent A st env H Hv) as H1.
  set (st1 := tooltip_shown A st env) in *.
  set (env1 := with_timers [tooltip_timer st env] (next_timer env + 1)%N (clicked st env))
    in *.
  destruct (clicked_frame st env) as (_ & _ & _ & Hnext & Hnow).
  (* d1 milliseconds pass *)
  assert (elapse d1 st1 env1 = (Return st1, with_clock (now env + d1)%N [timerA] env1))
    as Hwait.
  { rewrite (elapse_pending d1 st1 env1 (tooltip_timer st env)); [| reflexivity |].
    - subst env1. cbn [now with_timers]. by rewrite Hnow.
    - subst env1. cbn [now with_timers tooltip_timer due]. rewrite Hnow. lia. }
  set (env2 := with_clock (now env + d1)%N [timerA] env1) in *.
  assert (consistent st1 env2) as H2.
  { destruct H1 as [Hp Ho Hs]. split; [exact Hp | exact Ho | exact Hs]. }
  (* the click on B *)
  pose proof (locked_click_run B st1 env2 H2 Hv HB HlockB) as HstepB.
  pose proof (showTooltip_consistent B st1 env2 H2 Hv) as H3.
  set (st3 := tooltip_shown B st1 env2) in *.
  set (env3 := with_timers [tooltip_timer st1 env2] (next_timer env2 + 1)%N
                 (clicked st1 env2)) in *.
  destruct (clicked_frame st1 env2) as (_ & _ & _ & Hnext2 & Hnow2).
  assert (tooltip_timer st1 env2 = timerB) as HtB by reflexivity.
  assert (now env3 = (now env + d1)%N) as Hnow3.
  { subst env3. cbn [now with_timers]. by rewrite Hnow2. }
  split; [| split; [| split]].
  - exists st1, env2. split; [| by split].
    cbn [run]. unfold bind. rewrite HstepA. unfold step at 1. by rewrite Hwait.
  - exists st3, env3.
    split; [| split; [| split; [| split; [| split; [| split; [| split]]]]]].
    + cbn [run]. unfold bind. rewrite HstepA. unfold step at 1. rewrite Hwait.
      by rewrite HstepB.
    + exact Hv.
    + reflexivity.
    + subst env3. cbn [timers with_timers]. by rewrite HtB.
    + exact Hnow3.
    + intros d2 Hd2. unfold step.
      rewrite (elapse_pending d2 st3 env3 timerB); [| by rewrite <- HtB |].
      * eexists _, _. split; [reflexivity |]. by split.
      * rewrite Hnow3. cbn [timerB due]. lia.
    + intros d2 Hd2. unfold step.
      rewrite (elapse_fires d2 st3 env3 timerB); [| by rewrite <- HtB |].
      * eexists _, _. split; [reflexivity |]. split; [| reflexivity].
        unfold fire. cbn [timerB action]. change (view st3) with (view st).
        rewrite Hv. by case_decide.
      * rewrite Hnow3. cbn [timerB due]. lia.
    + intros events st' env' Hrun.
      assert (ids_from (next_timer env + 1)%N env3) as Hids.
      { split.
        - subst env3 env2 env1. cbn [next_timer with_timers with_clock]. lia.
        - subst env3. cbn [timers with_timers]. rewrite HtB.
          constructor; [cbn; lia | constructor]. }
      destruct (run_sound events st3 env3 H3) as (st'' & env'' & Hrun' & _ & _ & Hall).
      rewrite Hrun in Hrun'. injection Hrun' as <- <-.
      destruct (Hall _ Hids) as [_ Hfrom].
      eapply Forall_impl; [exact Hfrom |]. cbn. intros tm Hle. lia.
  - by apply unmount_run.
  - unfold step. rewrite Hv. unfold handleNavigation, bind.
    rewrite playClickSound_run.
    rewrite render_run by (by apply clicked_consistent).
    eexists _, _. split; [reflexivity |]. by split.
Qed.

End Machine.

(** ** Concrete runs *)

Lemma scene_reachable_load :
  reachable no_coercion (fst (scene None [click_load])) (snd (scene None [click_load])).
Proof.
  exists (page None), [click_load].
  split; [split; reflexivity | vm_compute; reflexivity].
Defined.

Lemma click_locked_chapter_witness :
  exists st' env',
    step no_coercion (click_chapter 2) (fst (scene None [click_load]))
      (snd (scene None [click_load])) = (Return st', env')
    /\ st' = with_chapterSelect
               {| visibleTooltip := Some 2%nat;
                  tooltipTimeoutRef := Some (next_timer (snd (scene None [click_load]))) |}
               (fst (scene None [click_load]))
    /\ view st' = chapters
    /\ gameState st' = gameState (fst (scene None [click_load]))
    /\ activeChapter st' = activeChapter (fst (scene None [click_load]))
    /\ timers env' = [{| timer_id := next_timer (snd (scene None [click_load]));
                         due := (now (snd (scene None [click_load])) + 3000)%N;
                         action := HideTooltip (instance (fst (scene None [click_load]))) |}]
    /\ localStorage env' = localStorage (snd (scene None [click_load]))
    /\ trace env' = (trace (snd (scene None [click_load]))
                     ++ if audioReady (fst (scene None [click_load]))
                        then [sound_started] else [])%list.
Proof.
  apply (click_locked_chapter no_coercion _ _ 2%nat 1%Z scene_reachable_load).
  - reflexivity.
  - vm_compute. lia.
  - reflexivity.
  - vm_compute. reflexivity.
Defined.

Lemma unlockedChapters_never_changes_witness :
  member (gameState (fst (scene None [click_load; click_chapter 0; click_exit; click_start])))
    "unlockedChapters" = JNum 1.
Proof.
  apply (proj2 (proj2 (unlockedChapters_never_changes no_coercion)) (page None)
           [click_load; click_chapter 0; click_exit; click_start]
           _ (snd (scene None [click_load; click_chapter 0; click_exit; click_start]))).
  - split; [split; reflexivity | vm_compute; reflexivity].
  - reflexivity.
Defined.

Lemma saveGameState_swallows_witness :
  setItem GAME_STATE_KEY (save_text defaultGameState) (refusing (page None))
    = (Throw SecurityError,
       emit (call_setItem GAME_STATE_KEY (save_text defaultGameState))
         (refusing (page None)))
  /\ saveGameState defaultGameState (refusing (page None))
     = (Return tt,
        emit (save_failed SecurityError)
          (emit (call_setItem GAME_STATE_KEY (save_text defaultGameState))
             (refusing (page None)))).
Proof.
  split; [reflexivity |].
  apply (proj1 (proj2 (saveGameState_swallows no_coercion defaultGameState
                         (refusing (page None))))
           SecurityError
           (emit (call_setItem GAME_STATE_KEY (save_text defaultGameState))
              (refusing (page None)))).
  reflexivity.
Defined.

Lemma exit_is_silent_witness :
  exists st1 env1,
    step no_coercion click_exit (fst (scene None [click_start])) (snd (scene None [click_start]))
      = (Return st1, env1)
    /\ view st1 = menu
    /\ gameState st1 = gameState (fst (scene None [click_start]))
    /\ activeChapter st1 = activeChapter (fst (scene None [click_start]))
    /\ audioReady st1 = audioReady (fst (scene None [click_start]))
    /\ trace env1 = trace (snd (scene None [click_start]))
    /\ localStorage env1 = localStorage (snd (scene None [click_start]))
    /\ exists st2 env2,
         step no_coercion click_start st1 env1 = (Return st2, env2)
         /\ view st2 = game
         /\ activeChapter st2 = activeChapter (fst (scene None [click_start])).
Proof.
  apply (exit_is_silent no_coercion).
  - exists (page None), [click_start].
    split; [split; reflexivity | vm_compute; reflexivity].
  - reflexivity.
Defined.

Lemma newer_tooltip_supersedes_witness :
  exists st3 env3,
    run no_coercion [click_chapter 2; time_passes 1000; click_chapter 4]
      (fst (scene None [click_load])) (snd (scene None [click_load])) = (Return st3, env3)
    /\ visibleTooltip (chapterSelect st3) = Some 4%nat
    /\ timers env3 = [{| timer_id := 2; due := 4000; action := HideTooltip 1 |}].
Proof.
  destruct (newer_tooltip_supersedes no_coercion (fst (scene None [click_load]))
              (snd (scene None [click_load])) 2 4 1000 scene_reachable_load)
    as (_ & (st3 & env3 & Hrun & _ & Hvis & Htimers & _) & _).
  - reflexivity.
  - vm_compute. lia.
  - vm_compute. lia.
  - reflexivity.
  - reflexivity.
  - reflexivity.
  - exists st3, env3. split; [exact Hrun |]. split; [exact Hvis | exact Htimers].
Defined.

(** * Further properties *)

(** ** What [loadGameState] returns *)

Lemma decimal_go_digit fuel : forall n acc,
  fuel <> O \/ starts_with_digit acc -> starts_with_digit (decimal_go fuel n acc).
Proof.
  induction fuel as [| fuel IH]; intros n acc H.
  - destruct H as [H | H]; [congruence | exact H].
  - simpl. assert (digit_value (digit_char (n mod 10)) = Some (n mod 10)%N) as Hd.
    { apply digit_value_char, N.mod_lt. lia. }
    destruct (n / 10 =? 0)%N.
    + simpl. eauto.
    + apply IH. right. simpl. eauto.
Qed.

Lemma decimal_digit n : starts_with_digit (decimal n).
Proof. apply decimal_go_digit. by left. Qed.

(** A key that does not start with a digit is not an index. *)
Lemma obj_get_indexed_name {A} (f : A -> JSValue) (l : list A) (c : ascii) (k : string) :
  digit_value c = None -> obj_get (indexed f l) (String c k) = None.
Proof.
  intros Hc. unfold indexed.
  assert (forall (g : nat -> N) (l : list A),
            obj_get (imap (fun i x => (decimal (g i), f x)) l) (String c k) = None) as H.
  { intros g l'. revert g. induction l' as [| x l' IH]; intros g; [reflexivity |].
    cbn [imap obj_get].
    pose proof (decimal_digit (g 0%nat)) as Hd.
    destruct (decimal (g 0%nat)) as [| c' s'] eqn:E; [contradiction |].
    destruct Hd as [d Hd]. cbn [String.eqb].
    destruct (Ascii.eqb_spec c' c) as [-> | _]; [congruence |].
    apply (IH (fun i => g (S i))). }
  apply (H N.of_nat).
Qed.

(** Only an object has a truthy [currentChapter]. *)
Lemma truthy_member_object v k c :
  digit_value c = None -> String.eqb (String c k) "length" = false ->
  ToBoolean (member v (String c k)) = true ->
  exists props x, v = JObj props /\ obj_get props (String c k) = Some x /\ ToBoolean x = true.
Proof.
  intros Hc Hlen. destruct v; cbn [member]; rewrite ?Hlen, ?obj_get_indexed_name by done;
    try discriminate.
  destruct (obj_get props (String c k)) as [x |] eqn:E; [| discriminate].
  intros H. by exists props, x.
Qed.

Lemma defaultGameState_validated : validated defaultGameState.
Proof.
  exists [("currentChapter", JNum 1); ("unlockedChapters", JNum 1)], (JNum 1), (JNum 1).
  done.
Qed.

Lemma truthy_validated v :
  ToBoolean (member v "currentChapter") = true ->
  ToBoolean (member v "unlockedChapters") = true ->
  validated v.
Proof.
  intros Hc Hu.
  destruct (truthy_member_object v "urrentChapter" "c" eq_refl eq_refl Hc)
    as (props & c & -> & Hgc & Htc).
  destruct (truthy_member_object _ "nlockedChapters" "u" eq_refl eq_refl Hu)
    as (props' & u & [= <-] & Hgu & Htu).
  by exists props, c, u.
Qed.

(** The value [loadGameState] returns is the default, or what the stored
    text parses to when that passes the check of the two fields. *)
Lemma loaded_cases env :
  loaded env = defaultGameState
  \/ exists text,
       stored env = Some text /\ JSON_parse text = Some (loaded env)
       /\ ToBoolean (member (loaded env) "currentChapter") = true
       /\ ToBoolean (member (loaded env) "unlockedChapters") = true.
Proof.
  unfold loaded. rewrite loadGameState_cases. unfold load_result, stored.
  destruct (denied (localStorage env)); [by left |].
  destruct (items (localStorage env) !! GAME_STATE_KEY) as [text |]; [| by left].
  destruct (String.eqb text ""); [by left |].
  destruct (JSON_parse text) as [v |] eqn:Hp; [| by left].
  destruct (ToBoolean (member v "currentChapter")
            && ToBoolean (member v "unlockedChapters")) eqn:Hb.
  - apply andb_true_iff in Hb. destruct Hb as [Hc Hu].
    right. exists text.
    destruct v; try discriminate Hc; cbn [fst]; auto.
  - destruct v; by left.
Qed.

Lemma loaded_validated env : validated (loaded env).
Proof.
  destruct (loaded_cases env) as [-> | (text & _ & _ & Hc & Hu)];
    [apply defaultGameState_validated | by apply truthy_validated].
Qed.

(** X1. [loadGameState] always returns and never writes to the storage.
    What it returns is an object whose [currentChapter] and
    [unlockedChapters] are both truthy; it is [defaultGameState], or the
    value the stored text parses to. *)
Theorem loadGameState_validates (env : Env) :
  exists g env',
    loadGameState env = (Return g, env')
    /\ validated g
    /\ localStorage env' = localStorage env
    /\ (g = defaultGameState
        \/ exists text, stored env = Some text /\ JSON_parse text = Some g).
Proof.
  destruct (loadGameState_run env) as (Hl & _ & _ & Hs).
  exists (loaded env), (snd (loadGameState env)).
  split; [assumption |]. split; [apply loaded_validated |]. split; [assumption |].
  destruct (loaded_cases env) as [-> | (text & Hst & Hp & _)]; [by left |].
  right. by exists text.
Qed.

(** ** Timers of what is transient on screen *)

Lemma elapse_idle ms st env :
  timers env = [] -> elapse ms st env = (Return st, with_clock (now env + ms)%N [] env).
Proof. intros Ht. unfold elapse. by rewrite Ht. Qed.

Lemma timed_env st env env' :
  timers env' = timers env -> now env' = now env -> timed st env -> timed st env'.
Proof. unfold timed. by intros -> ->. Qed.

Lemma timed_rendered v st env timer :
  timed (rendered v st timer) (rendered_env v st env).
Proof.
  destruct v; unfold timed; cbn; [reflexivity | by left |].
  right. eexists. split; [reflexivity |]. cbn. repeat split. lia.
Qed.

Lemma timed_elapse ms st env :
  timed st env ->
  exists st' env', elapse ms st env = (Return st', env') /\ timed st' env'
    /\ view st' = view st.
Proof.
  unfold timed. destruct (view st) eqn:Hv.
  - intros Ht. rewrite elapse_idle by done. eexists _, _. split; [reflexivity |].
    by rewrite Hv.
  - intros [[Hn Ht] | (tm & Ht & Hvis & Ha & Hdue)].
    + rewrite elapse_idle by done. eexists _, _. split; [reflexivity |].
      rewrite Hv. split; [by left | done].
    + destruct (N.le_gt_cases (due tm) (now env + ms)) as [Hle | Hgt].
      * rewrite (elapse_fires _ _ _ tm) by done. eexists _, _. split; [reflexivity |].
        unfold fire. rewrite Ha, Hv. case_decide; [| done]. cbn. rewrite Hv.
        split; [by left | done].
      * rewrite (elapse_pending _ _ _ tm) by done. eexists _, _. split; [reflexivity |].
        rewrite Hv. split; [| done]. right. exists tm. cbn. repeat split; try done. lia.
  - intros [[Hn Ht] | (tm & Ht & Hvis & Ha & Hdue)].
    + rewrite elapse_idle by done. eexists _, _. split; [reflexivity |].
      rewrite Hv. split; [by left | done].
    + destruct (N.le_gt_cases (due tm) (now env + ms)) as [Hle | Hgt].
      * rewrite (elapse_fires _ _ _ tm) by done. eexists _, _. split; [reflexivity |].
        unfold fire. rewrite Ha, Hv. case_decide; [| done]. cbn. rewrite Hv.
        split; [by left | done].
      * rewrite (elapse_pending _ _ _ tm) by done. eexists _, _. split; [reflexivity |].
        rewrite Hv. split; [| done]. right. exists tm. cbn. repeat split; try done. lia.
Qed.

(** The state of [GameView] changes, its fade-in and timer do not. *)
Lemma timed_gameView st env g :
  view st = game ->
  isFadingIn g = isFadingIn (gameView st) ->
  timed st env -> timed (with_gameView g st) env.
Proof. unfold timed. cbn. intros -> ->. done. Qed.

Lemma render_timed v st env st' env' :
  consistent st env -> render v st env = (Return st', env') -> timed st' env'.
Proof.
  intros H. rewrite render_run by assumption. intros Heq.
  injection Heq as <- <-. apply (timed_rendered v st env (next_timer env)).
Qed.

Lemma handleNavigation_timed v st env st' env' :
  consistent st env -> handleNavigation v st env = (Return st', env') -> timed st' env'.
Proof.
  intros H. unfold handleNavigation, bind. rewrite playClickSound_run.
  apply render_timed. by apply clicked_consistent.
Qed.

Lemma navigateToGame_timed chapter st env st' env' :
  consistent st env -> navigateToGame chapter st env = (Return st', env') -> timed st' env'.
Proof.
  intros H. rewrite navigateToGame_run by assumption. intros Heq.
  injection Heq as <- <-.
  eapply timed_env; [apply saved_frame | apply saved_frame |].
  apply (timed_rendered game (entering chapter st) (clicked st env) (next_timer env)).
Qed.

Lemma showTooltip_timed index st env st' env' :
  consistent st env -> view st = chapters ->
  showTooltip index st env = (Return st', env') -> timed st' env'.
Proof.
  intros H Hv. rewrite showTooltip_run by assumption. intros Heq.
  injection Heq as <- <-.
  unfold timed, tooltip_shown. cbn. rewrite Hv. right. eexists. split; [reflexivity |].
  cbn. repeat split; try done.
  rewrite (proj2 (proj2 (proj2 (proj2 (clicked_frame st env))))). lia.
Qed.

Section Transient.

Variable gt_coerced : Z -> JSValue -> bool.

Lemma step_timed e st env st' env' :
  consistent st env -> timed st env ->
  step gt_coerced e st env = (Return st', env') ->
  timed st' env'.
Proof.
  intros H Ht. destruct e; unfold step; destruct (view st) eqn:Hv;
    try (intros [= <- <-]; assumption);
    try (by apply navigateToGame_timed);
    try (by apply handleNavigation_timed);
    try (apply render_timed; by apply (consistent_state st));
    try (intros Hel; destruct (timed_elapse ms st env Ht) as (s & e' & Hel' & Ht' & _);
         rewrite Hel in Hel'; by simplify_eq).
  - destruct (index <? length ROMAN_NUMERALS)%nat; [| intros [= <- <-]; assumption].
    cbv zeta. destruct (isLocked _ _ _);
      [by apply showTooltip_timed | by apply navigateToGame_timed].
  - destruct (showRestartConfirm (gameView st)); intros [= <- <-]; [| assumption].
    by apply (timed_gameView st env).
  - destruct (showRestartConfirm (gameView st)); intros [= <- <-]; [| assumption].
    by apply timed_gameView.
  - destruct (index <? 2)%nat; [| intros [= <- <-]; assumption].
    unfold handleChoice, bind, perform. rewrite playClickSound_run.
    intros [= <- <-]. revert Ht. unfold timed. rewrite Hv.
    destruct (clicked_frame st (emit (console_log_choice index) env))
      as (_ & _ & -> & _ & ->). done.
Qed.

End Transient.

(** ** Views, sounds and the fade-in, handler by handler *)

Lemma sounds_app t1 t2 : sounds (t1 ++ t2) = (sounds t1 + sounds t2)%nat.
Proof. unfold sounds. by rewrite omap_app, length_app. Qed.

Lemma sounds_clicked st env :
  sounds (trace (clicked st env))
  = (sounds (trace env) + if audioReady st then 1 else 0)%nat.
Proof.
  unfold clicked. destruct (audioReady st); [| lia].
  cbn [trace emit with_trace]. rewrite sounds_app. reflexivity.
Qed.

Lemma sounds_saved g env : sounds (trace (saved g env)) = sounds (trace env).
Proof.
  unfold saved, save_result.
  destruct (denied (localStorage env));
    [| destruct (write_fails (localStorage env) (save_text g))];
    cbn [snd trace emit with_trace with_localStorage];
    rewrite ?sounds_app; cbn; lia.
Qed.

(** The effects traced are no sounds. *)
Ltac no_sound := cbn [snd trace emit with_trace]; rewrite ?sounds_app; cbn; lia.

Lemma sounds_loaded env : sounds (trace (snd (loadGameState env))) = sounds (trace env).
Proof.
  rewrite loadGameState_cases. unfold load_result.
  destruct (denied (localStorage env)); [no_sound |].
  destruct (items (localStorage env) !! GAME_STATE_KEY) as [text |]; [| no_sound].
  destruct (String.eqb text ""); [no_sound |].
  destruct (JSON_parse text) as [v |]; [| no_sound].
  destruct v; try no_sound;
    match goal with
    | |- context [ToBoolean ?a && ToBoolean ?b] =>
        destruct (ToBoolean a && ToBoolean b); no_sound
    end.
Qed.

Lemma fire_fading a st :
  isFadingIn (gameView (fire a st)) = true -> isFadingIn (gameView st) = true.
Proof.
  unfold fire. destruct a, (view st); try done; case_decide; done.
Qed.

Lemma fired_fading (l : list Timer) st :
  isFadingIn (gameView (fold_left (fun s tm => fire (action tm) s) l st)) = true ->
  isFadingIn (gameView st) = true.
Proof.
  revert st. induction l as [| tm l IH]; intros st; [done |].
  cbn [fold_left]. intros H. by apply (fire_fading (action tm)), IH.
Qed.

Lemma summary_same st env click :
  click = false -> summary (view st) click st env st env.
Proof. intros ->. unfold summary. rewrite andb_false_r. repeat split. cbn. lia. Qed.

Lemma rendered_frame v st timer :
  view (rendered v st timer) = v
  /\ gameState (rendered v st timer) = gameState st
  /\ activeChapter (rendered v st timer) = activeChapter st
  /\ audioReady (rendered v st timer) = audioReady st
  /\ instance (rendered v st timer) = S (instance st).
Proof. by destruct v. Qed.

Lemma rendered_env_frame v st env :
  localStorage (rendered_env v st env) = localStorage env
  /\ trace (rendered_env v st env) = trace env
  /\ now (rendered_env v st env) = now env.
Proof. by destruct v. Qed.

Lemma render_summary v st env st' env' :
  consistent st env -> render v st env = (Return st', env') ->
  summary v false st env st' env'.
Proof.
  intros H. rewrite render_run by assumption. intros Heq. injection Heq as <- <-.
  unfold summary. rewrite andb_false_r.
  destruct (rendered_frame v st (next_timer env)) as (-> & _ & _ & -> & _).
  destruct (rendered_env_frame v st env) as (_ & -> & _). repeat split. cbn. lia.
Qed.

Lemma handleNavigation_summary v st env st' env' :
  consistent st env -> handleNavigation v st env = (Return st', env') ->
  summary v true st env st' env'.
Proof.
  intros H. unfold handleNavigation, bind. rewrite playClickSound_run.
  intros Hr. apply render_summary in Hr; [| by apply clicked_consistent].
  destruct Hr as (Hv & Ha & Hs). unfold summary. rewrite andb_true_r.
  rewrite andb_false_r in Hs. rewrite Hs, sounds_clicked.
  repeat split; try done; cbn; lia.
Qed.

Lemma navigateToGame_summary chapter st env st' env' :
  consistent st env -> navigateToGame chapter st env = (Return st', env') ->
  summary game true st env st' env'.
Proof.
  intros H. rewrite navigateToGame_run by assumption. intros Heq.
  assert (st' = rendered game (entering chapter st) (next_timer env)) as -> by congruence.
  assert (env' = saved (entered chapter (gameState st))
                   (rendered_env game (entering chapter st) (clicked st env))) as ->
    by congruence.
  clear Heq. unfold summary. rewrite andb_true_r.
  rewrite sounds_saved.
  destruct (rendered_env_frame game (entering chapter st) (clicked st env)) as (_ & -> & _).
  rewrite sounds_clicked. repeat split.
Qed.

Lemma showTooltip_summary index st env st' env' :
  consistent st env -> view st = chapters ->
  showTooltip index st env = (Return st', env') ->
  summary chapters true st env st' env'.
Proof.
  intros H Hv. rewrite showTooltip_run by assumption. intros Heq.
  assert (st' = tooltip_shown index st env) as -> by congruence.
  assert (env' = with_timers [tooltip_timer st env] (next_timer env + 1)%N (clicked st env))
    as -> by congruence.
  clear Heq. unfold summary. rewrite andb_true_r.
  cbn [with_timers trace]. rewrite sounds_clicked. repeat split. exact Hv.
Qed.

Lemma elapse_summary ms st env st' env' :
  elapse ms st env = (Return st', env') ->
  summary (view st) false st env st' env'
  /\ (isFadingIn (gameView st') = true -> isFadingIn (gameView st) = true).
Proof.
  unfold elapse. intros Heq. injection Heq as <- <-.
  set (fired := filter _ (timers env)).
  destruct (fired_frame fired st) as (Hv & _ & _ & _ & Ha & _).
  split; [| apply fired_fading].
  unfold summary. rewrite andb_false_r. cbv zeta in *. repeat split; try done; cbn; lia.
Qed.

Section Observations.

Variable gt_coerced : Z -> JSValue -> bool.

Lemma summary_observed e st env st' env' :
  decodes e = false ->
  summary (destination gt_coerced e st) (clicks e (view st)) st env st' env' ->
  (view st = game -> view st' = game ->
   isFadingIn (gameView st') = true -> isFadingIn (gameView st) = true) ->
  observed gt_coerced e st env st' env'.
Proof.
  intros Hd (Hv & Ha & Hs) Hf. unfold observed. rewrite Hd, orb_false_r. auto.
Qed.

Lemma summary_gameView st env g click :
  click = false -> summary (view st) click st env (with_gameView g st) env.
Proof. intros ->. unfold summary. rewrite andb_false_r. repeat split. cbn. lia. Qed.

Lemma step_observed e st env st' env' :
  consistent st env ->
  step gt_coerced e st env = (Return st', env') ->
  observed gt_coerced e st env st' env'.
Proof.
  intros H. destruct e; unfold step; destruct (view st) eqn:Hv;
    try (intros [= <- <-]; apply summary_observed; [reflexivity | | done];
         unfold destination, clicks; rewrite Hv;
         rewrite <- Hv at 1; by apply summary_same).
  all: try (unfold togglePanel, setShowRestartConfirm; cbv zeta;
            intros [= <- <-]; apply summary_observed; [reflexivity | | done];
            unfold destination, clicks; rewrite Hv;
            rewrite <- Hv at 1; by apply summary_gameView).
  (* time_passes, in each view *)
  all: try solve
    [ intros Hel; destruct (elapse_summary _ _ _ _ _ Hel) as (Hs & Hf);
      (apply summary_observed; [reflexivity | | auto]);
      unfold destination, clicks; rewrite Hv in *; exact Hs ].
  (* sound_decoded, in each view *)
  all: try solve
    [ intros Hr; apply render_summary in Hr; [| by apply (consistent_state st)];
      destruct Hr as (Hv' & Ha & Hs); unfold observed, destination, clicks;
      rewrite Hv; cbn [decodes view audioReady with_audioReady andb] in *;
      rewrite orb_true_r, andb_false_r, Hs; repeat split; try done; lia ].
  - (* click_start *)
    intros Hn. apply summary_observed; [reflexivity | | congruence].
    unfold destination, clicks. rewrite Hv. by eapply navigateToGame_summary.
  - (* click_load *)
    intros Hn. apply summary_observed; [reflexivity | | congruence].
    unfold destination, clicks. rewrite Hv. by eapply handleNavigation_summary.
  - (* click_chapter *)
    intros Hn. apply summary_observed; [reflexivity | | congruence].
    unfold destination, clicks. rewrite Hv. revert Hn.
    destruct (index <? length ROMAN_NUMERALS)%nat.
    + cbv zeta. destruct (isLocked _ _ _); cbn [andb negb].
      * by apply showTooltip_summary.
      * by apply navigateToGame_summary.
    + intros [= <- <-]. cbn [andb]. rewrite <- Hv. by apply summary_same.
  - (* click_back *)
    intros Hn. apply summary_observed; [reflexivity | | congruence].
    unfold destination, clicks. rewrite Hv. by eapply handleNavigation_summary.
  - (* click_exit *)
    unfold handleSilentNavigation.
    intros Hn. apply summary_observed; [reflexivity | |].
    + unfold destination, clicks. rewrite Hv. by eapply render_summary.
    + intros _ Hg. apply render_summary in Hn; [| assumption].
      destruct Hn as (Hm & _). congruence.
  - (* click_yes *)
    destruct (showRestartConfirm (gameView st)); intros [= <- <-];
      (apply summary_observed; [reflexivity | | done]);
      unfold destination, clicks; rewrite Hv.
    + unfold summary. cbn [view audioReady with_gameView trace emit with_trace].
      rewrite andb_false_r, sounds_app. cbn. repeat split; try done; lia.
    + rewrite <- Hv. by apply summary_same.
  - (* click_no *)
    destruct (showRestartConfirm (gameView st)); intros [= <- <-];
      (apply summary_observed; [reflexivity | | done]);
      unfold destination, clicks; rewrite Hv; rewrite <- Hv at 1;
      [by apply summary_gameView | by apply summary_same].
  - (* click_choice *)
    destruct (index <? 2)%nat eqn:Hi.
    + unfold handleChoice, bind, perform. rewrite playClickSound_run.
      intros [= <- <-]. apply summary_observed; [reflexivity | | done].
      unfold destination, clicks. rewrite Hv, Hi. unfold summary.
      rewrite andb_true_r, sounds_clicked. cbn [trace emit with_trace].
      rewrite sounds_app. cbn. repeat split; try done; lia.
    + intros [= <- <-]. apply summary_observed; [reflexivity | | done].
      unfold destination, clicks. rewrite Hv, Hi. rewrite <- Hv. by apply summary_same.
Qed.

End Observations.

(** ** Invariants of runs *)

Lemma saved_writable g env :
  writable env -> writable (saved g env) /\ stored (saved g env) = Some (save_text g).
Proof.
  intros [Hd Hq]. unfold saved, save_result, write_fails, writable, stored.
  rewrite Hd, Hq. cbn. split; [done |]. by rewrite lookup_insert.
Qed.

Lemma writable_env env env' :
  localStorage env' = localStorage env -> writable env -> writable env'.
Proof. unfold writable. by intros ->. Qed.

Section Runs.

Variable gt_coerced : Z -> JSValue -> bool.

Lemma step_returns e st env st' env' :
  consistent st env -> step gt_coerced e st env = (Return st', env') ->
  sound_step gt_coerced e st env st' env'.
Proof.
  intros H Hs. destruct (step_sound gt_coerced e st env H) as (st1 & env1 & Hs1 & Hsound).
  rewrite Hs in Hs1. by simplify_eq.
Qed.

Lemma enters_step e st chapter :
  enters gt_coerced e st chapter -> step gt_coerced e st = navigateToGame chapter st.
Proof.
  destruct e; unfold enters, step; destruct (view st); try done.
  - by intros ->.
  - intros (Hi & Hl & ->). apply Nat.ltb_lt in Hi. rewrite Hi. cbv zeta. by rewrite Hl.
Qed.

Lemma run_invariant (I : State -> Env -> Prop) :
  (forall e st env st' env', consistent st env -> I st env ->
     step gt_coerced e st env = (Return st', env') -> I st' env') ->
  forall events st env st' env', consistent st env -> I st env ->
    run gt_coerced events st env = (Return st', env') -> I st' env'.
Proof.
  intros Hstep. induction events as [| e events IH]; intros st env st' env' H HI.
  - intros [= <- <-]. assumption.
  - cbn [run]. unfold bind.
    destruct (step_sound gt_coerced e st env H) as (st1 & env1 & Hs1 & (H1 & _)).
    rewrite Hs1. apply IH; [assumption |]. by apply (Hstep e st env).
Qed.

Lemma reaches_invariant (I : State -> Env -> Prop) env0 events st env :
  I (initial (loaded env0)) (saved (loaded env0) (snd (loadGameState env0))) ->
  (forall e st env st' env', consistent st env -> I st env ->
     step gt_coerced e st env = (Return st', env') -> I st' env') ->
  reaches gt_coerced env0 events st env -> I st env.
Proof.
  intros H0 Hstep [Hf Hrun]. unfold bind in Hrun. rewrite boot_run in Hrun.
  by apply (run_invariant I Hstep events _ _ _ _ (boot_consistent _ Hf) H0).
Qed.

(** *** Persistence *)

Lemma mirrored_step e st env st' env' :
  consistent st env -> mirrored st env ->
  step gt_coerced e st env = (Return st', env') -> mirrored st' env'.
Proof.
  intros H [Hw Hst] Hs.
  destruct (step_returns _ _ _ _ _ H Hs) as (_ & [(c & Hen & Hp) | (_ & Hp)] & _).
  - rewrite (enters_step _ _ _ Hen), navigateToGame_run in Hs by assumption.
    destruct Hp as (_ & _ & Hg & _). unfold mirrored. rewrite Hg.
    assert (env' = saved (entered c (gameState st))
                     (rendered_env game (entering c st) (clicked st env))) as ->
      by congruence.
    apply saved_writable. apply (writable_env env); [| assumption].
    destruct (rendered_env_frame game (entering c st) (clicked st env)) as (-> & _).
    by destruct (clicked_frame st env) as (-> & _).
  - destruct Hp as (Hg & _ & Hl & _). unfold mirrored, stored. rewrite Hl, Hg.
    split; [by apply (writable_env env) | assumption].
Qed.

Lemma mirrored_boot env0 :
  writable env0 ->
  mirrored (initial (loaded env0)) (saved (loaded env0) (snd (loadGameState env0))).
Proof.
  intros Hw. apply saved_writable.
  destruct (loadGameState_run env0) as (_ & _ & _ & Hl). by apply (writable_env env0).
Qed.

Lemma last_save_step e st env st' env' :
  consistent st env ->
  last (saves (trace env)) = Some (save_text (gameState st)) ->
  step gt_coerced e st env = (Return st', env') ->
  last (saves (trace env')) = Some (save_text (gameState st')).
Proof.
  intros H Hl Hs.
  destruct (step_returns _ _ _ _ _ H Hs) as (_ & [(c & _ & Hp) | (_ & Hp)] & _).
  - destruct Hp as (_ & _ & _ & ->). apply last_snoc.
  - destruct Hp as (-> & _ & _ & ->). assumption.
Qed.

(** *** The shape of the progress *)

Lemma validated_step e st env st' env' :
  consistent st env -> validated (gameState st) ->
  step gt_coerced e st env = (Return st', env') -> validated (gameState st').
Proof.
  intros H Hval Hs.
  destruct (step_returns _ _ _ _ _ H Hs) as (_ & [(ch & Hen & Hp) | (_ & Hp)] & _).
  - destruct Hp as (_ & _ & -> & _).
    destruct Hval as (props & c & u & Hg & Hc & Hu & Tc & Tu).
    rewrite Hg in *. unfold entered. cbn [spread].
    exists (define props "currentChapter" ch), ch, u.
    split; [reflexivity |]. split; [apply obj_get_define_eq |].
    split; [by rewrite obj_get_define_ne |]. split; [| assumption].
    destruct e; unfold enters in Hen; destruct (view st); try done.
    + rewrite Hen, Hg. cbn [member]. by rewrite Hc.
    + destruct Hen as (_ & _ & ->). cbn. apply negb_true_iff, Z.eqb_neq. lia.
  - destruct Hp as (-> & _). assumption.
Qed.

Lemma entered_mkGameState c a b : entered (JNum c) (mkGameState a b) = mkGameState c b.
Proof. reflexivity. Qed.

Lemma bounded_step a b e st env st' env' :
  consistent st env -> bounded a b st ->
  step gt_coerced e st env = (Return st', env') -> bounded a b st'.
Proof.
  intros H (c & Hg & Hc) Hs.
  destruct (step_returns _ _ _ _ _ H Hs) as (_ & [(ch & Hen & Hp) | (_ & Hp)] & _).
  - destruct Hp as (_ & _ & Hg' & _). rewrite Hg in Hg'.
    destruct e; unfold enters in Hen; destruct (view st); try done.
    + rewrite Hg in Hen. cbn in Hen. subst ch. exists c. by rewrite Hg'.
    + destruct Hen as (_ & Hl & ->). rewrite Hg in Hl. cbn in Hl.
      exists (Z.of_nat index + 1)%Z. rewrite Hg', entered_mkGameState.
      split; [reflexivity |]. right. rewrite Z.gtb_ltb in Hl. apply Z.ltb_ge in Hl. lia.
  - destruct Hp as (Hg' & _). exists c. by rewrite Hg'.
Qed.

End Runs.

(** ** The application as its user sees it *)

Section Coverage.

Variable gt_coerced : Z -> JSValue -> bool.

Lemma reaches_timed env0 events st env :
  reaches gt_coerced env0 events st env -> timed st env.
Proof.
  intros Hr. pose proof Hr as [[Ht _] _].
  apply (reaches_invariant gt_coerced timed env0 events); [| | assumption].
  - unfold timed. cbn [view initial].
    destruct (saved_frame (loaded env0) (snd (loadGameState env0))) as (-> & _).
    destruct (loadGameState_run env0) as (_ & -> & _). assumption.
  - intros e s1 e1 s2 e2. apply step_timed.
Qed.

Lemma reachable_timed st env : reachable gt_coerced st env -> timed st env.
Proof. intros (env0 & events & H). by eapply reaches_timed. Qed.

Lemma reaches_bounded env0 events st env a b :
  loaded env0 = mkGameState a b ->
  reaches gt_coerced env0 events st env -> bounded a b st.
Proof.
  intros Hl. apply (reaches_invariant gt_coerced (fun st _ => bounded a b st)).
  - exists a. cbn [gameState initial]. auto.
  - intros e s1 e1 s2 e2. apply bounded_step.
Qed.

Lemma run_audio events : forall st env st' env',
  consistent st env ->
  run gt_coerced events st env = (Return st', env') ->
  audioReady st' = audioReady st || existsb decodes events
  /\ (audioReady st' = false -> sounds (trace env') = sounds (trace env)).
Proof.
  induction events as [| e events IH]; intros st env st' env' H.
  - intros [= <- <-]. cbn. by rewrite orb_false_r.
  - cbn [run existsb]. unfold bind.
    destruct (step_sound gt_coerced e st env H) as (st1 & env1 & Hs1 & (H1 & _)).
    rewrite Hs1. intros Hrun.
    destruct (IH _ _ _ _ H1 Hrun) as (Ha & Hsnd).
    destruct (step_observed gt_coerced _ _ _ _ _ H Hs1) as (_ & Ha1 & Hsnd1 & _).
    split; [by rewrite Ha, Ha1, orb_assoc |].
    intros Hoff. rewrite (Hsnd Hoff), Hsnd1.
    rewrite Hoff in Ha. symmetry in Ha. apply orb_false_iff in Ha as [Ha _].
    rewrite Ha in Ha1. symmetry in Ha1. apply orb_false_iff in Ha1 as [-> _].
    cbn. lia.
Qed.





Lemma reaches_validated env0 events st env :
  reaches gt_coerced env0 events st env -> validated (gameState st).
Proof.
  apply (reaches_invariant gt_coerced (fun st _ => validated (gameState st)));
    [apply loaded_validated | apply validated_step].
Qed.

Lemma saved_stored g env :
  write_fails (localStorage env) (save_text g) = false ->
  stored (saved g env) = Some (save_text g).
Proof.
  intros Hw. unfold saved, save_result. rewrite Hw.
  unfold write_fails in Hw. apply orb_false_iff in Hw as [-> _].
  unfold stored. cbn. by rewrite lookup_insert.
Qed.


(** C2. In a reachable state showing the chapter list, the click on a
    chapter [n = index + 1] with [n <= unlockedChapters] returns with the
    view [game] on chapter [n].  The new progress is the previous one with
    [currentChapter] set to [n]: it has the same properties in the same
    order, [currentChapter] is [n] and every other property has the value
    it had, so a record [{currentChapter: c, unlockedChapters: u}] becomes
    [{currentChapter: n, unlockedChapters: u}].  There is exactly one more
    [setItem] under the program's key, with the text of the new progress,
    which is then what is stored unless the storage refuses the write.
    And for every event, the step either keeps the progress and saves
    nothing, or saves the new progress once: the save is attempted whatever
    the storage does. *)
Theorem select_unlocked_chapter (st : State) (env : Env) :
  reachable gt_coerced st env ->
  (forall (index : nat) (u : Z),
     view st = chapters ->
     (index < length ROMAN_NUMERALS)%nat ->
     member (gameState st) "unlockedChapters" = JNum u ->
     (Z.of_nat index + 1 <= u)%Z ->
     exists st' env' props props',
       step gt_coerced (click_chapter index) st env = (Return st', env')
       /\ view st' = game
       /\ activeChapter st' = JNum (Z.of_nat index + 1)
       /\ gameState st = JObj props /\ gameState st' = JObj props'
       /\ map fst props' = map fst props
       /\ (forall k,
             obj_get props' k
             = if String.eqb k "currentChapter" then Some (JNum (Z.of_nat index + 1))
               else obj_get props k)
       /\ (forall c, gameState st = mkGameState c u ->
                     gameState st' = mkGameState (Z.of_nat index + 1) u)
       /\ saves (trace env') = (saves (trace env) ++ [save_text (gameState st')])%list
       /\ (write_fails (localStorage env) (save_text (gameState st')) = false ->
           stored env' = Some (save_text (gameState st'))))
  /\ (forall (e : Event) (st' : State) (env' : Env),
        step gt_coerced e st env = (Return st', env') ->
        (gameState st' = gameState st /\ saves (trace env') = saves (trace env))
        \/ saves (trace env') = (saves (trace env) ++ [save_text (gameState st')])%list).
Proof.
  intros Hr. pose proof (reachable_consistent _ _ _ Hr) as H. split.
  - intros index u Hv Hi Hu Hle.
    destruct Hr as (env0 & events & Hr).
    destruct (reaches_validated _ _ _ _ Hr) as (props & c & u' & Hg & Hc & _).
    rewrite (unlocked_click_run gt_coerced); try assumption.
    2: { rewrite Hu, isLocked_number, Z.gtb_ltb. apply Z.ltb_ge. lia. }
    destruct (navigateToGame_progress (JNum (Z.of_nat index + 1)) st env)
      as (Hview & Hactive & Hstate & Hsaves).
    exists (rendered game (entering (JNum (Z.of_nat index + 1)) st) (next_timer env)),
      (saved (entered (JNum (Z.of_nat index + 1)) (gameState st))
         (rendered_env game (entering (JNum (Z.of_nat index + 1)) st) (clicked st env))),
      props, (define props "currentChapter" (JNum (Z.of_nat index + 1))).
    assert (gameState (rendered game (entering (JNum (Z.of_nat index + 1)) st)
                         (next_timer env))
            = JObj (define props "currentChapter" (JNum (Z.of_nat index + 1)))) as Hnew.
    { rewrite Hstate. unfold entered. by rewrite Hg. }
    split; [reflexivity |]. split; [exact Hview |]. split; [exact Hactive |].
    split; [exact Hg |]. split; [exact Hnew |]. split.
    { unfold define. rewrite Hc. apply obj_update_keys. }
    split.
    { intros k. destruct (String.eqb_spec k "currentChapter") as [-> | Hne].
      - apply obj_get_define_eq.
      - apply obj_get_define_ne. congruence. }
    split.
    { intros c' Hc'. rewrite Hnew. rewrite Hc' in Hg. injection Hg as <-. reflexivity. }
    split; [exact Hsaves |].
    intros Hw. rewrite Hstate in *. apply saved_stored.
    destruct (rendered_env_frame game (entering (JNum (Z.of_nat index + 1)) st)
                (clicked st env)) as (-> & _).
    destruct (clicked_frame st env) as (-> & _). exact Hw.
  - intros e st' env' Hstep.
    destruct (step_sound gt_coerced e st env H) as (st1 & env1 & Hstep1 & _ & Hp & _).
    rewrite Hstep in Hstep1. injection Hstep1 as <- <-.
    destruct Hp as [(c & _ & _ & _ & _ & Hs) | (_ & Hg & _ & _ & Hs)];
      [by right | by left].
Qed.


(** X2. On a storage that accepts every write, after any sequence of events
    the text stored under the program's key is the serialization of the
    progress in memory (and the storage still accepts every write). *)
Theorem storage_mirrors_progress (env0 : Env) (events : list Event)
    (st : State) (env : Env) :
  writable env0 ->
  reaches gt_coerced env0 events st env ->
  writable env /\ stored env = Some (save_text (gameState st)).
Proof.
  intros Hw Hr.
  apply (reaches_invariant gt_coerced mirrored env0 events);
    [by apply mirrored_boot | apply mirrored_step | assumption].
Qed.

(** X3. Whatever the storage does, the last text handed to [setItem] under
    the program's key is the serialization of the progress in memory: no
    change of the progress is left unsaved. *)
Theorem last_save_is_progress (env0 : Env) (events : list Event)
    (st : State) (env : Env) :
  reaches gt_coerced env0 events st env ->
  last (saves (trace env)) = Some (save_text (gameState st)).
Proof.
  apply (reaches_invariant gt_coerced
           (fun st env => last (saves (trace env)) = Some (save_text (gameState st)))).
  - rewrite saved_saves. apply last_snoc.
  - apply last_save_step.
Qed.

(** X4. The progress in memory is at all times an object whose
    [currentChapter] and [unlockedChapters] are truthy, that is, a value
    [loadGameState] accepts, and [activeChapter] is its truthy
    [currentChapter]. *)
Theorem progress_stays_valid (env0 : Env) (events : list Event)
    (st : State) (env : Env) :
  reaches gt_coerced env0 events st env ->
  validated (gameState st)
  /\ activeChapter st = member (gameState st) "currentChapter"
  /\ ToBoolean (activeChapter st) = true.
Proof.
  intros Hr.
  assert (validated (gameState st)) as Hval.
  { revert Hr.
    apply (reaches_invariant gt_coerced (fun st _ => validated (gameState st))).
    - apply loaded_validated.
    - apply validated_step. }
  split; [assumption |].
  destruct (reaches_consistent gt_coerced _ _ _ _ Hr) as [_ _ Hsync].
  split; [assumption |]. rewrite Hsync.
  destruct Hval as (props & c & u & -> & Hc & _ & Tc & _).
  cbn [member]. by rewrite Hc.
Qed.


(** X6. When the record loaded at mount is two numbers with
    [1 <= currentChapter <= unlockedChapters], this holds of the progress
    ever after, with the same [unlockedChapters]: no sequence of events
    makes a locked chapter the current one. *)
Theorem currentChapter_stays_unlocked (env0 : Env) (events : list Event)
    (st : State) (env : Env) (a b : Z) :
  loaded env0 = mkGameState a b -> (1 <= a <= b)%Z ->
  reaches gt_coerced env0 events st env ->
  exists c, gameState st = mkGameState c b /\ activeChapter st = JNum c
            /\ (1 <= c <= b)%Z.
Proof.
  intros Hl Hab Hr.
  destruct (reaches_bounded _ _ _ _ _ _ Hl Hr) as (c & Hg & Hc).
  exists c. split; [assumption |].
  destruct (reaches_consistent gt_coerced _ _ _ _ Hr) as [_ _ Hsync].
  split; [by rewrite Hsync, Hg | lia].
Qed.

(** X7. The only changes of view are: menu to game by the start button,
    menu to chapter select by the load button, chapter select to menu by
    the back button, chapter select to game by the click on one of the ten
    chapters that is not locked, and game to menu by the exit button.  In
    particular nothing leads from the game to the chapter select. *)
Theorem navigation_arrows (e : Event) (st : State) (env : Env)
    (st' : State) (env' : Env) :
  reachable gt_coerced st env ->
  step gt_coerced e st env = (Return st', env') ->
  view st' <> view st ->
  (view st = menu /\ e = click_start /\ view st' = game)
  \/ (view st = menu /\ e = click_load /\ view st' = chapters)
  \/ (view st = chapters /\ e = click_back /\ view st' = menu)
  \/ (view st = chapters /\ view st' = game
      /\ exists index, e = click_chapter index
           /\ (index < length ROMAN_NUMERALS)%nat
           /\ isLocked gt_coerced (Z.of_nat index + 1)
                (member (gameState st) "unlockedChapters") = false)
  \/ (view st = game /\ e = click_exit /\ view st' = menu).
Proof.
  intros Hr Hs.
  destruct (step_observed gt_coerced _ _ _ _ _ (reachable_consistent _ _ _ Hr) Hs)
    as (Hv & _).
  rewrite Hv. unfold destination.
  destruct e, (view st) eqn:Hst; try done; try tauto.
  destruct (index <? length ROMAN_NUMERALS)%nat eqn:Hi; [| done].
  destruct (isLocked _ _ _) eqn:Hl; [done |]. cbn [andb negb]. intros _.
  do 3 right. left. split; [reflexivity |]. split; [reflexivity |].
  exists index. apply Nat.ltb_lt in Hi. auto.
Qed.

(** X8. A handler starts the click sound once when the sound has been
    decoded and the control is the start, load or back button, one of the
    ten chapters (locked or not) or one of the two choices; every other
    event, and every event before the sound is decoded, starts none. *)
Theorem click_sound_accounting (e : Event) (st : State) (env : Env)
    (st' : State) (env' : Env) :
  reachable gt_coerced st env ->
  step gt_coerced e st env = (Return st', env') ->
  sounds (trace env')
  = (sounds (trace env) + if audioReady st && clicks e (view st) then 1 else 0)%nat.
Proof.
  intros Hr Hs.
  by destruct (step_observed gt_coerced _ _ _ _ _ (reachable_consistent _ _ _ Hr) Hs)
    as (_ & _ & Hsnd & _).
Qed.

(** X9. The sound is ready exactly when it has been decoded, and stays
    ready; as long as it has not been decoded no click sound is started. *)
Theorem silent_until_decoded (env0 : Env) (events : list Event)
    (st : State) (env : Env) :
  reaches gt_coerced env0 events st env ->
  audioReady st = existsb decodes events
  /\ (existsb decodes events = false -> sounds (trace env) = sounds (trace env0)).
Proof.
  intros [Hf Hrun]. unfold bind in Hrun. rewrite boot_run in Hrun.
  destruct (run_audio _ _ _ _ _ (boot_consistent _ Hf) Hrun) as (Ha & Hsnd).
  cbn [audioReady initial orb] in Ha. split; [assumption |].
  intros Hoff. rewrite Hsnd by congruence.
  by rewrite sounds_saved, sounds_loaded.
Qed.

(** X10. No timer leaks: at most one timer is pending, none on the menu;
    the pending timer is the one of the component on screen, it hides the
    tooltip within 3000 ms or ends the fade-in within 100 ms. *)
Theorem no_timer_leaks (env0 : Env) (events : list Event)
    (st : State) (env : Env) :
  reaches gt_coerced env0 events st env ->
  (length (timers env) <= 1)%nat
  /\ (view st = menu -> timers env = [])
  /\ (forall tm, tm ∈ timers env ->
        (view st = chapters /\ action tm = HideTooltip (instance st)
         /\ (due tm <= now env + 3000)%N)
        \/ (view st = game /\ action tm = FadeInDone (instance st)
            /\ (due tm <= now env + 100)%N)).
Proof.
  intros Hr. pose proof (reaches_timed _ _ _ _ Hr) as Ht. unfold timed in Ht.
  destruct (view st).
  - rewrite Ht. cbn. split; [lia |]. split; [done |]. intros tm Hin. by apply elem_of_nil in Hin.
  - destruct Ht as [(_ & ->) | (tm0 & -> & _ & Hact & Hdue)]; cbn.
    + split; [lia |]. split; [done |]. intros tm Hin. by apply elem_of_nil in Hin.
    + split; [lia |]. split; [done |]. intros tm Hin.
      apply list_elem_of_singleton in Hin as ->. left. auto.
  - destruct Ht as [(_ & ->) | (tm0 & -> & _ & Hact & Hdue)]; cbn.
    + split; [lia |]. split; [done |]. intros tm Hin. by apply elem_of_nil in Hin.
    + split; [lia |]. split; [done |]. intros tm Hin.
      apply list_elem_of_singleton in Hin as ->. right. auto.
Qed.

(** X11. On the chapter select, once 3000 ms have passed without a click
    no tooltip is visible and no timer is pending. *)
Theorem tooltip_hides_in_time (st : State) (env : Env) (ms : N) :
  reachable gt_coerced st env ->
  view st = chapters -> (3000 <= ms)%N ->
  exists st' env',
    step gt_coerced (time_passes ms) st env = (Return st', env')
    /\ view st' = chapters
    /\ visibleTooltip (chapterSelect st') = None
    /\ timers env' = [].
Proof.
  intros Hr Hv Hms. pose proof (reachable_timed _ _ Hr) as Ht.
  unfold timed in Ht. rewrite Hv in Ht.
  assert (step gt_coerced (time_passes ms) st = elapse ms st) as ->
    by (unfold step; by destruct (view st)).
  destruct Ht as [(Hnone & Hnil) | (tm & Htm & _ & Hact & Hdue)].
  - rewrite (elapse_idle _ _ _ Hnil). eexists _, _. split; [reflexivity |]. auto.
  - rewrite (elapse_fires ms st env tm Htm) by lia.
    eexists _, _. split; [reflexivity |].
    rewrite Hact. unfold fire. rewrite Hv. rewrite decide_True by reflexivity.
    cbn. auto.
Qed.

(** X12. In the game, once 100 ms have passed the fade-in overlay is
    hidden and no timer is pending. *)
Theorem fade_in_ends_in_time (st : State) (env : Env) (ms : N) :
  reachable gt_coerced st env ->
  view st = game -> (100 <= ms)%N ->
  exists st' env',
    step gt_coerced (time_passes ms) st env = (Return st', env')
    /\ view st' = game
    /\ isFadingIn (gameView st') = false
    /\ timers env' = [].
Proof.
  intros Hr Hv Hms. pose proof (reachable_timed _ _ Hr) as Ht.
  unfold timed in Ht. rewrite Hv in Ht.
  assert (step gt_coerced (time_passes ms) st = elapse ms st) as ->
    by (unfold step; by destruct (view st)).
  destruct Ht as [(Hnone & Hnil) | (tm & Htm & _ & Hact & Hdue)].
  - rewrite (elapse_idle _ _ _ Hnil). eexists _, _. split; [reflexivity |]. auto.
  - rewrite (elapse_fires ms st env tm Htm) by lia.
    eexists _, _. split; [reflexivity |].
    rewrite Hact. unfold fire. rewrite Hv. rewrite decide_True by reflexivity.
    cbn. auto.
Qed.

(** X13. The fade-in is one-shot: while the game stays on screen, an
    overlay that is hidden stays hidden under every event but the arrival
    of the decoded sound. *)
Theorem fade_in_is_one_shot (e : Event) (st : State) (env : Env)
    (st' : State) (env' : Env) :
  reachable gt_coerced st env ->
  view st = game -> isFadingIn (gameView st) = false ->
  e <> sound_decoded ->
  step gt_coerced e st env = (Return st', env') ->
  view st' = game ->
  isFadingIn (gameView st') = false.
Proof.
  intros Hr Hv Hoff He Hs Hv'.
  destruct (step_observed gt_coerced _ _ _ _ _ (reachable_consistent _ _ _ Hr) Hs)
    as (_ & _ & _ & Hf).
  destruct (isFadingIn (gameView st')) eqn:Hon; [| reflexivity].
  rewrite <- Hoff. symmetry. apply Hf; try done. by destruct e.
Qed.

(** X14. When the decoded sound arrives, [App] renders again and the
    component on screen is mounted anew: a visible tooltip is gone with
    its timer, and a game starts over with the panel hidden, the
    confirmation closed and a new fade-in of 100 ms.  The view and the
    progress stay, and nothing is saved. *)
Theorem decoded_sound_remounts (st : State) (env : Env) :
  reachable gt_coerced st env ->
  exists st' env',
    step gt_coerced sound_decoded st env = (Return st', env')
    /\ audioReady st' = true /\ view st' = view st
    /\ gameState st' = gameState st
    /\ saves (trace env') = saves (trace env)
    /\ (view st = chapters ->
        visibleTooltip (chapterSelect st') = None /\ timers env' = [])
    /\ (view st = game ->
        isPanelVisible (gameView st') = false
        /\ showRestartConfirm (gameView st') = false
        /\ isFadingIn (gameView st') = true
        /\ exists tm, timers env' = [tm] /\ due tm = (now env + 100)%N
                      /\ action tm = FadeInDone (instance st')).
Proof.
  intros Hr. pose proof (reachable_consistent _ _ _ Hr) as H.
  assert (step gt_coerced sound_decoded st = render (view st) (with_audioReady true st))
    as -> by (unfold step; by destruct (view st)).
  rewrite render_run by (by apply (consistent_state st)).
  eexists _, _. split; [reflexivity |].
  destruct (view st) eqn:Hv; cbn; repeat split; try done.
  eexists. repeat split.
Qed.

(** X15. Entering the game, from the menu or from the chapter select,
    shows it with the panel hidden, the confirmation closed and the
    overlay opaque, and arms the one timer that hides the overlay 100 ms
    later. *)
Theorem entering_game_fades_in (e : Event) (st : State) (env : Env)
    (st' : State) (env' : Env) :
  reachable gt_coerced st env ->
  view st <> game ->
  step gt_coerced e st env = (Return st', env') ->
  view st' = game ->
  isPanelVisible (gameView st') = false
  /\ showRestartConfirm (gameView st') = false
  /\ isFadingIn (gameView st') = true
  /\ exists tm, timers env' = [tm] /\ due tm = (now env + 100)%N
                /\ action tm = FadeInDone (instance st').
Proof.
  intros Hr Hv Hs Hv'. pose proof (reachable_consistent _ _ _ Hr) as H.
  destruct (step_returns _ _ _ _ _ _ H Hs) as (_ & [(c & Hen & _) | (Hp & _)] & _).
  - rewrite (enters_step _ _ _ _ Hen), navigateToGame_run in Hs by assumption.
    assert (st' = rendered game (entering c st) (next_timer env)) as -> by congruence.
    assert (env' = saved (entered c (gameState st))
                     (rendered_env game (entering c st) (clicked st env))) as ->
      by congruence.
    repeat split.
    destruct (saved_frame (entered c (gameState st))
                (rendered_env game (entering c st) (clicked st env))) as (-> & _).
    destruct (clicked_frame st env) as (_ & _ & _ & _ & Hnow).
    eexists. cbn [rendered_env with_timers timers]. split; [reflexivity |].
    cbn. by rewrite Hnow.
  - exfalso.
    destruct (step_observed gt_coerced _ _ _ _ _ H Hs) as (Hd & _).
    rewrite Hv' in Hd. unfold destination in Hd.
    destruct e, (view st) eqn:Hst; try done.
    + by apply (Hp (member (gameState st) "currentChapter")); unfold enters; rewrite Hst.
    + destruct (index <? length ROMAN_NUMERALS)%nat eqn:Hi; [| done].
      destruct (isLocked _ _ _) eqn:Hl; [done |].
      apply (Hp (JNum (Z.of_nat index + 1))). unfold enters. rewrite Hst.
      apply Nat.ltb_lt in Hi. auto.
Qed.

(** X16. Opening the restart confirmation and answering no leaves the
    game exactly as it was, panel included, and does nothing else. *)
Theorem restart_declined (st : State) (env : Env) :
  view st = game -> showRestartConfirm (gameView st) = false ->
  run gt_coerced [click_restart; click_no] st env = (Return st, env).
Proof.
  intros Hv Hc. cbn [run]. unfold bind, step. rewrite Hv.
  unfold setShowRestartConfirm. cbn. rewrite Hv. cbn.
  destruct st as [v g a r i cs [p c f t]]. cbn in *. by subst.
Qed.

(** X17. Opening the restart confirmation and answering yes closes the
    confirmation and the panel and logs the restart of the active
    chapter; the view, the progress, the overlay, the storage and the
    timers are as before. *)
Theorem restart_confirmed (st : State) (env : Env) :
  view st = game ->
  exists st',
    run gt_coerced [click_restart; click_yes] st env
      = (Return st', emit (console_log_restart (activeChapter st)) env)
    /\ isPanelVisible (gameView st') = false
    /\ showRestartConfirm (gameView st') = false
    /\ isFadingIn (gameView st') = isFadingIn (gameView st)
    /\ view st' = game /\ gameState st' = gameState st
    /\ activeChapter st' = activeChapter st.
Proof.
  intros Hv. cbn [run]. unfold bind, step. rewrite Hv.
  unfold setShowRestartConfirm. cbn. rewrite Hv. cbn.
  eexists. split; [reflexivity |]. by cbn.
Qed.

(** X18. A click on the trigger area or on the panel outside its buttons
    flips the visibility of the panel and nothing else; two such clicks
    leave the game exactly as it was. *)
Theorem panel_toggles (st : State) (env : Env) (e1 e2 : Event) :
  view st = game ->
  e1 = click_trigger \/ e1 = click_panel ->
  e2 = click_trigger \/ e2 = click_panel ->
  (exists st1,
     step gt_coerced e1 st env = (Return st1, env)
     /\ isPanelVisible (gameView st1) = negb (isPanelVisible (gameView st))
     /\ showRestartConfirm (gameView st1) = showRestartConfirm (gameView st)
     /\ isFadingIn (gameView st1) = isFadingIn (gameView st))
  /\ run gt_coerced [e1; e2] st env = (Return st, env).
Proof.
  intros Hv [-> | ->] [-> | ->]; cbn [run]; unfold bind, step; rewrite Hv;
    unfold togglePanel; cbn; rewrite Hv; cbn;
    (split; [eexists; split; [reflexivity | done] |]);
    destruct st as [v g a r i cs [p c f t]]; cbn in *; by rewrite negb_involutive.
Qed.

End Coverage.

(** ** Concrete runs of the properties above *)

Ltac by_running :=
  split; [split; reflexivity | vm_compute; reflexivity].

Ltac reached env0 events := exists env0, events; by_running.

Lemma select_unlocked_chapter_witness :
  exists st' env' props props',
    step no_coercion (click_chapter 2) (state_after chapter_2_of_3 [click_load])
      (env_after chapter_2_of_3 [click_load]) = (Return st', env')
    /\ view st' = game
    /\ activeChapter st' = JNum (Z.of_nat 2 + 1)
    /\ gameState (state_after chapter_2_of_3 [click_load]) = JObj props
    /\ gameState st' = JObj props'
    /\ map fst props' = map fst props
    /\ (forall k,
          obj_get props' k
          = if String.eqb k "currentChapter" then Some (JNum (Z.of_nat 2 + 1))
            else obj_get props k)
    /\ (forall c, gameState (state_after chapter_2_of_3 [click_load]) = mkGameState c 3 ->
                  gameState st' = mkGameState (Z.of_nat 2 + 1) 3)
    /\ saves (trace env')
       = (saves (trace (env_after chapter_2_of_3 [click_load]))
          ++ [save_text (gameState st')])%list
    /\ (write_fails (localStorage (env_after chapter_2_of_3 [click_load]))
          (save_text (gameState st')) = false ->
        stored env' = Some (save_text (gameState st'))).
Proof.
  apply (proj1 (select_unlocked_chapter no_coercion
                  (state_after chapter_2_of_3 [click_load])
                  (env_after chapter_2_of_3 [click_load])
                  ltac:(reached chapter_2_of_3 [click_load])) 2%nat 3%Z).
  - reflexivity.
  - vm_compute. lia.
  - reflexivity.
  - vm_compute. discriminate.
Defined.


Lemma storage_mirrors_progress_witness :
  writable (env_after chapter_2_of_3 [click_load; click_chapter 0])
  /\ stored (env_after chapter_2_of_3 [click_load; click_chapter 0])
     = Some (save_text
               (gameState (state_after chapter_2_of_3 [click_load; click_chapter 0]))).
Proof.
  apply (storage_mirrors_progress no_coercion chapter_2_of_3
           [click_load; click_chapter 0]).
  - split; reflexivity.
  - by_running.
Defined.

Lemma last_save_is_progress_witness :
  last (saves (trace (env_after (refusing chapter_2_of_3) [click_load; click_chapter 0])))
  = Some (save_text
            (gameState (state_after (refusing chapter_2_of_3)
                          [click_load; click_chapter 0]))).
Proof.
  apply (last_save_is_progress no_coercion (refusing chapter_2_of_3)
           [click_load; click_chapter 0]).
  by_running.
Defined.

Lemma progress_stays_valid_witness :
  validated (gameState (state_after chapter_2_of_3 [click_start; click_exit]))
  /\ activeChapter (state_after chapter_2_of_3 [click_start; click_exit])
     = member (gameState (state_after chapter_2_of_3 [click_start; click_exit]))
         "currentChapter"
  /\ ToBoolean (activeChapter (state_after chapter_2_of_3 [click_start; click_exit])) = true.
Proof.
  apply (progress_stays_valid no_coercion chapter_2_of_3 [click_start; click_exit]
           _ (env_after chapter_2_of_3 [click_start; click_exit])).
  by_running.
Defined.


Lemma currentChapter_stays_unlocked_witness :
  exists c,
    gameState (state_after chapter_2_of_3 [click_load; click_chapter 2; click_exit])
    = mkGameState c 3
    /\ activeChapter (state_after chapter_2_of_3 [click_load; click_chapter 2; click_exit])
       = JNum c
    /\ (1 <= c <= 3)%Z.
Proof.
  apply (currentChapter_stays_unlocked no_coercion chapter_2_of_3
           [click_load; click_chapter 2; click_exit] _
           (env_after chapter_2_of_3 [click_load; click_chapter 2; click_exit]) 2 3).
  - vm_compute. reflexivity.
  - lia.
  - by_running.
Defined.

Lemma navigation_arrows_witness :
  let st := state_after (page None) [click_load] in
  let st' := state_after (page None) [click_load; click_back] in
  (view st = menu /\ click_back = click_start /\ view st' = game)
  \/ (view st = menu /\ click_back = click_load /\ view st' = chapters)
  \/ (view st = chapters /\ click_back = click_back /\ view st' = menu)
  \/ (view st = chapters /\ view st' = game
      /\ exists index, click_back = click_chapter index
           /\ (index < length ROMAN_NUMERALS)%nat
           /\ isLocked no_coercion (Z.of_nat index + 1)
                (member (gameState st) "unlockedChapters") = false)
  \/ (view st = game /\ click_back = click_exit /\ view st' = menu).
Proof.
  apply (navigation_arrows no_coercion click_back
           (state_after (page None) [click_load]) (env_after (page None) [click_load])
           (state_after (page None) [click_load; click_back])
           (env_after (page None) [click_load; click_back])).
  - reached (page None) [click_load].
  - vm_compute. reflexivity.
  - vm_compute. discriminate.
Defined.

Lemma click_sound_accounting_witness :
  sounds (trace (env_after (page None) [sound_decoded; click_load; click_chapter 4]))
  = (sounds (trace (env_after (page None) [sound_decoded; click_load]))
     + if audioReady (state_after (page None) [sound_decoded; click_load])
          && clicks (click_chapter 4)
               (view (state_after (page None) [sound_decoded; click_load]))
       then 1 else 0)%nat.
Proof.
  apply (click_sound_accounting no_coercion (click_chapter 4)
           (state_after (page None) [sound_decoded; click_load])
           (env_after (page None) [sound_decoded; click_load])
           (state_after (page None) [sound_decoded; click_load; click_chapter 4])).
  - reached (page None) [sound_decoded; click_load].
  - vm_compute. reflexivity.
Defined.

Lemma silent_until_decoded_witness :
  audioReady (state_after (page None) [click_start; click_exit; click_load])
  = existsb decodes [click_start; click_exit; click_load]
  /\ (existsb decodes [click_start; click_exit; click_load] = false ->
      sounds (trace (env_after (page None) [click_start; click_exit; click_load]))
      = sounds (trace (page None))).
Proof.
  apply (silent_until_decoded no_coercion (page None)
           [click_start; click_exit; click_load]).
  by_running.
Defined.

Lemma no_timer_leaks_witness :
  let st := state_after (page None) [click_load; click_chapter 4; time_passes 1000] in
  let env := env_after (page None) [click_load; click_chapter 4; time_passes 1000] in
  (length (timers env) <= 1)%nat
  /\ (view st = menu -> timers env = [])
  /\ (forall tm, tm ∈ timers env ->
        (view st = chapters /\ action tm = HideTooltip (instance st)
         /\ (due tm <= now env + 3000)%N)
        \/ (view st = game /\ action tm = FadeInDone (instance st)
            /\ (due tm <= now env + 100)%N)).
Proof.
  apply (no_timer_leaks no_coercion (page None)
           [click_load; click_chapter 4; time_passes 1000]).
  by_running.
Defined.

Lemma tooltip_hides_in_time_witness :
  exists st' env',
    step no_coercion (time_passes 3000)
      (state_after (page None) [click_load; click_chapter 4])
      (env_after (page None) [click_load; click_chapter 4]) = (Return st', env')
    /\ view st' = chapters
    /\ visibleTooltip (chapterSelect st') = None
    /\ timers env' = [].
Proof.
  apply (tooltip_hides_in_time no_coercion).
  - reached (page None) [click_load; click_chapter 4].
  - reflexivity.
  - lia.
Defined.

Lemma fade_in_ends_in_time_witness :
  exists st' env',
    step no_coercion (time_passes 100)
      (state_after (page None) [click_start]) (env_after (page None) [click_start])
    = (Return st', env')
    /\ view st' = game
    /\ isFadingIn (gameView st') = false
    /\ timers env' = [].
Proof.
  apply (fade_in_ends_in_time no_coercion).
  - reached (page None) [click_start].
  - reflexivity.
  - lia.
Defined.

Lemma fade_in_is_one_shot_witness :
  isFadingIn
    (gameView (state_after (page None) [click_start; time_passes 100; click_trigger]))
  = false.
Proof.
  apply (fade_in_is_one_shot no_coercion click_trigger
           (state_after (page None) [click_start; time_passes 100])
           (env_after (page None) [click_start; time_passes 100])
           (state_after (page None) [click_start; time_passes 100; click_trigger])
           (env_after (page None) [click_start; time_passes 100; click_trigger])).
  - reached (page None) [click_start; time_passes 100].
  - reflexivity.
  - reflexivity.
  - discriminate.
  - vm_compute. reflexivity.
  - reflexivity.
Defined.

Lemma decoded_sound_remounts_witness :
  let st := state_after (page None) [click_start; time_passes 100; click_trigger] in
  let env := env_after (page None) [click_start; time_passes 100; click_trigger] in
  exists st' env',
    step no_coercion sound_decoded st env = (Return st', env')
    /\ audioReady st' = true /\ view st' = view st
    /\ gameState st' = gameState st
    /\ saves (trace env') = saves (trace env)
    /\ (view st = chapters ->
        visibleTooltip (chapterSelect st') = None /\ timers env' = [])
    /\ (view st = game ->
        isPanelVisible (gameView st') = false
        /\ showRestartConfirm (gameView st') = false
        /\ isFadingIn (gameView st') = true
        /\ exists tm, timers env' = [tm] /\ due tm = (now env + 100)%N
                      /\ action tm = FadeInDone (instance st')).
Proof.
  apply (decoded_sound_remounts no_coercion).
  reached (page None) [click_start; time_passes 100; click_trigger].
Defined.

Lemma entering_game_fades_in_witness :
  let st' := state_after chapter_2_of_3 [click_load; click_chapter 2] in
  let env' := env_after chapter_2_of_3 [click_load; click_chapter 2] in
  isPanelVisible (gameView st') = false
  /\ showRestartConfirm (gameView st') = false
  /\ isFadingIn (gameView st') = true
  /\ exists tm, timers env' = [tm]
                /\ due tm = (now (env_after chapter_2_of_3 [click_load]) + 100)%N
                /\ action tm = FadeInDone (instance st').
Proof.
  apply (entering_game_fades_in no_coercion (click_chapter 2)
           (state_after chapter_2_of_3 [click_load])
           (env_after chapter_2_of_3 [click_load])).
  - reached chapter_2_of_3 [click_load].
  - discriminate.
  - vm_compute. reflexivity.
  - reflexivity.
Defined.

Lemma restart_declined_witness :
  run no_coercion [click_restart; click_no]
    (state_after (page None) [click_start; click_trigger])
    (env_after (page None) [click_start; click_trigger])
  = (Return (state_after (page None) [click_start; click_trigger]),
     env_after (page None) [click_start; click_trigger]).
Proof.
  apply (restart_declined no_coercion); reflexivity.
Defined.

Lemma restart_confirmed_witness :
  let st := state_after (page None) [click_start; click_trigger] in
  let env := env_after (page None) [click_start; click_trigger] in
  exists st',
    run no_coercion [click_restart; click_yes] st env
      = (Return st', emit (console_log_restart (activeChapter st)) env)
    /\ isPanelVisible (gameView st') = false
    /\ showRestartConfirm (gameView st') = false
    /\ isFadingIn (gameView st') = isFadingIn (gameView st)
    /\ view st' = game /\ gameState st' = gameState st
    /\ activeChapter st' = activeChapter st.
Proof.
  apply (restart_confirmed no_coercion); reflexivity.
Defined.

Lemma panel_toggles_witness :
  let st := state_after (page None) [click_start] in
  let env := env_after (page None) [click_start] in
  (exists st1,
     step no_coercion click_trigger st env = (Return st1, env)
     /\ isPanelVisible (gameView st1) = negb (isPanelVisible (gameView st))
     /\ showRestartConfirm (gameView st1) = showRestartConfirm (gameView st)
     /\ isFadingIn (gameView st1) = isFadingIn (gameView st))
  /\ run no_coercion [click_trigger; click_panel] st env = (Return st, env).
Proof.
  apply (panel_toggles no_coercion); [reflexivity | by left | by right].
Defined.
